(** * A technical blog's post catalog, blog page and theme switch

    Shallow embedding of the JavaScript of the blog:
    - [js/posts.js]  (the catalog [POSTS] and its query functions),
    - [js/blog.js]   (tag filter, search box and pagination of the listing),
    - [js/theme.js]  (light/dark theme switch),
    - [js/main.js]   (the recent posts of the home page),
    - [js/post.js]   (the page of one post),
    together with the few built-ins of the language they rely on
    ([Array.prototype.sort], [slice], [String.prototype.includes], ...).

    Strings are ASCII texts ([String.string]); numbers that the code uses as
    integers are in [Z]; [undefined] results are [None]. *)

From Stdlib Require Import ZArith List String Ascii Bool Lia Permutation Sorted.
From stdpp Require Import gmap.
Import ListNotations.

Local Open Scope Z_scope.

(* ===================================================================== *)
(** ** The built-ins of the language *)
(* ===================================================================== *)

Module JS.

(** *** Strings *)

(** [c.toLowerCase()] on an ASCII character: only [A]..[Z] move. *)
Definition toLowerCase_ascii (c : ascii) : ascii :=
  let n := nat_of_ascii c in
  if (Nat.leb 65 n && Nat.leb n 90)%bool then ascii_of_nat (n + 32) else c.

Fixpoint toLowerCase (s : string) : string :=
  match s with
  | EmptyString => EmptyString
  | String c s' => String (toLowerCase_ascii c) (toLowerCase s')
  end.

(** [s.startsWith(sub)] *)
Fixpoint startsWith (s sub : string) {struct sub} : bool :=
  match sub with
  | EmptyString => true
  | String c sub' =>
      match s with
      | EmptyString => false
      | String d s' => Ascii.eqb d c && startsWith s' sub'
      end
  end.

(** [s.includes(sub)]: [sub] occurs in [s] at some position. *)
Fixpoint includes (s sub : string) : bool :=
  startsWith s sub ||
  match s with
  | EmptyString => false
  | String _ s' => includes s' sub
  end.

(** White space and line terminators of the ASCII range: TAB, LF, VT, FF,
    CR and SPACE. *)
Definition isWhiteSpace (c : ascii) : bool :=
  let n := nat_of_ascii c in
  (Nat.leb 9 n && Nat.leb n 13) || Nat.eqb n 32.

Fixpoint trimStart (s : string) : string :=
  match s with
  | EmptyString => EmptyString
  | String c s' => if isWhiteSpace c then trimStart s' else s
  end.

Fixpoint trimEnd (s : string) : string :=
  match s with
  | EmptyString => EmptyString
  | String c s' =>
      match trimEnd s' with
      | EmptyString => if isWhiteSpace c then EmptyString else String c EmptyString
      | r => String c r
      end
  end.

(** [s.trim()] *)
Definition trim (s : string) : string := trimEnd (trimStart s).

(** The default comparison of [Array.prototype.sort] on strings: code unit
    by code unit. *)
Definition compareStrings (a b : string) : Z :=
  match String.compare a b with
  | Lt => -1
  | Eq => 0
  | Gt => 1
  end.

(** *** Dates

    [new Date(s)] for the date-only forms of the date-time string format,
    [YYYY], [YYYY-MM] and [YYYY-MM-DD], which are read as UTC: the time
    value in milliseconds since the epoch, or [None] for an invalid date
    (time value [NaN]).  Strings in other formats are read by
    implementation-specific rules and stand outside this model: they are
    invalid here. *)

Definition digit (c : ascii) : option Z :=
  let n := nat_of_ascii c in
  if (Nat.leb 48 n && Nat.leb n 57)%bool then Some (Z.of_nat (n - 48)) else None.

Definition digits2 (a b : ascii) : option Z :=
  match digit a, digit b with
  | Some x, Some y => Some (10 * x + y)
  | _, _ => None
  end.

Definition digits4 (a b c d : ascii) : option Z :=
  match digits2 a b, digits2 c d with
  | Some x, Some y => Some (100 * x + y)
  | _, _ => None
  end.

Definition InLeapYear (y : Z) : bool :=
  (y mod 4 =? 0) && (negb (y mod 100 =? 0) || (y mod 400 =? 0)).

Definition DaysInMonth (leap : bool) (m : Z) : Z :=
  if m =? 2 then (if leap then 29 else 28)
  else if (m =? 4) || (m =? 6) || (m =? 9) || (m =? 11) then 30
  else 31.

(** Number of the first day of year [y], counted from 1 January 1970. *)
Definition DayFromYear (y : Z) : Z :=
  365 * (y - 1970) + (y - 1969) / 4 - (y - 1901) / 100 + (y - 1601) / 400.

(** Days of a year that come before its month [m] (1-based). *)
Definition DaysBeforeMonth (leap : bool) (m : Z) : Z :=
  fold_right Z.add 0 (map (DaysInMonth leap) (map Z.of_nat (seq 1 (Z.to_nat (m - 1))))).

Definition msPerDay : Z := 86400000.

(** The time value of the day [d] of month [m] of year [y], when there is
    such a day. *)
Definition MakeDate (y m d : Z) : option Z :=
  let leap := InLeapYear y in
  if (1 <=? m) && (m <=? 12) && (1 <=? d) && (d <=? DaysInMonth leap m)
  then Some ((DayFromYear y + DaysBeforeMonth leap m + (d - 1)) * msPerDay)
  else None.

(** Year, month and day written in a date-only string; an absent month or
    day is 1. *)
Definition Date_fields (s : string) : option (Z * Z * Z) :=
  match s with
  | String y1 (String y2 (String y3 (String y4 rest))) =>
      match digits4 y1 y2 y3 y4 with
      | None => None
      | Some y =>
          match rest with
          | EmptyString => Some (y, 1, 1)
          | String "-" (String m1 (String m2 rest')) =>
              match digits2 m1 m2 with
              | None => None
              | Some m =>
                  match rest' with
                  | EmptyString => Some (y, m, 1)
                  | String "-" (String d1 (String d2 EmptyString)) =>
                      match digits2 d1 d2 with
                      | None => None
                      | Some d => Some (y, m, d)
                      end
                  | _ => None
                  end
              end
          | _ => None
          end
      end
  | _ => None
  end.

Definition Date_parse (s : string) : option Z :=
  match Date_fields s with
  | Some (y, m, d) => MakeDate y m d
  | None => None
  end.

(** *** Arrays *)

Section Arrays.
Context {A : Type}.

(** [arr.sort(comparefn)].  The language requires the sort to be stable;
    whenever [comparefn] is a consistent comparator this fixes the result,
    which is the one computed here by insertion.  [comparefn a b < 0] puts
    [a] before [b]. *)
Fixpoint sort_insert (comparefn : A -> A -> Z) (x : A) (l : list A) : list A :=
  match l with
  | [] => [x]
  | y :: l' =>
      if comparefn x y <=? 0 then x :: y :: l'
      else y :: sort_insert comparefn x l'
  end.

Fixpoint Array_sort (comparefn : A -> A -> Z) (l : list A) : list A :=
  match l with
  | [] => []
  | x :: l' => sort_insert comparefn x (Array_sort comparefn l')
  end.

(** [arr.slice(start, end)], with the language's reading of negative and
    of too large indices. *)
Definition relativeIndex (len i : Z) : Z :=
  if i <? 0 then Z.max (len + i) 0 else Z.min i len.

Definition Array_slice (l : list A) (start end_ : Z) : list A :=
  let len := Z.of_nat (length l) in
  let k := relativeIndex len start in
  let final := relativeIndex len end_ in
  firstn (Z.to_nat (final - k)) (skipn (Z.to_nat k) l).

(** [arr.find(f)]; [None] is [undefined]. *)
Definition Array_find (f : A -> bool) (l : list A) : option A := List.find f l.

(** [arr.some(f)] *)
Definition Array_some (f : A -> bool) (l : list A) : bool := List.existsb f l.

(** [arr.filter(f)] *)
Definition Array_filter (f : A -> bool) (l : list A) : list A := List.filter f l.
End Arrays.

(** [arr.includes(x)] on an array of strings: exact equality. *)
Definition Array_includes (l : list string) (x : string) : bool :=
  List.existsb (String.eqb x) l.

(** [new Set()] filled by [add] in the order of [l], then [Array.from]: the
    first occurrence of every element, in insertion order. *)
Definition Set_add (s : list string) (x : string) : list string :=
  if Array_includes s x then s else s ++ [x].

Definition Set_from (l : list string) : list string :=
  fold_left Set_add l [].

End JS.

(* ===================================================================== *)
(** ** js/posts.js *)
(* ===================================================================== *)

Module Posts.
Import JS.

Record Post := mkPost {
  id : string;
  title : string;
  date : string;
  summary : string;
  tags : list string;
  content : string;
  readingTime : string
}.

(** A post with its [score], the objects [{...p, score: n}] that
    [getRelatedPosts] builds. *)
Record ScoredPost := mkScored {
  post : Post;
  score : Z
}.

Definition POSTS : list Post := [
  mkPost "understanding-move-semantics-cpp"
         "Understanding Move Semantics in Modern C++"
         "2026-01-28"
         "A deep dive into move semantics, rvalue references, and how they improve performance in modern C++ applications."
         ["C++"; "Performance"; "Programming"]
         "posts/understanding-move-semantics-cpp.md"
         "8 min read";
  mkPost "neural-networks-from-scratch"
         "Building Neural Networks from Scratch"
         "2026-01-20"
         "Implementing a neural network using only NumPy to understand the fundamentals of backpropagation and gradient descent."
         ["AI"; "Machine Learning"; "Python"]
         "posts/neural-networks-from-scratch.md"
         "12 min read";
  mkPost "intro-to-shader-programming"
         "Introduction to Shader Programming"
         "2026-01-15"
         "Learn the basics of vertex and fragment shaders, and create your first GPU-accelerated visual effects."
         ["Graphics"; "Shaders"; "GLSL"]
         "posts/intro-to-shader-programming.md"
         "10 min read";
  mkPost "probability-theory-ml"
         "Probability Theory for Machine Learning"
         "2026-01-10"
         "Essential probability concepts every ML engineer should know, from Bayes theorem to probability distributions."
         ["Math"; "Machine Learning"; "Probability"]
         "posts/probability-theory-ml.md"
         "15 min read";
  mkPost "modern-cpp-best-practices"
         "Modern C++ Best Practices in 2026"
         "2026-01-05"
         "A comprehensive guide to writing clean, efficient, and maintainable C++ code using C++20 and C++23 features."
         ["C++"; "Best Practices"; "Software Engineering"]
         "posts/modern-cpp-best-practices.md"
         "10 min read"
]%string.

(** The functions below read the module-level array [POSTS]; here the
    catalog is their first argument [C].  [limit] is 3 when a caller leaves
    it out; the pages pass 6 to [getRecentPosts] and 3 to [getRelatedPosts]. *)

(** [(a, b) => new Date(b.date) - new Date(a.date)].  With an invalid date
    the difference is [NaN], which the sort takes as [+0]. *)
Definition compareByDate (a b : Post) : Z :=
  match Date_parse (date b), Date_parse (date a) with
  | Some tb, Some ta => tb - ta
  | _, _ => 0
  end.

Definition getAllPosts (C : list Post) : list Post :=
  Array_sort compareByDate C.

Definition getPostById (C : list Post) (postId : string) : option Post :=
  Array_find (fun p => String.eqb (id p) postId) C.

Definition getRecentPosts (C : list Post) (limit : Z) : list Post :=
  Array_slice (getAllPosts C) 0 limit.

Definition getPostsByTag (C : list Post) (tag : string) : list Post :=
  if String.eqb tag "all" then getAllPosts C
  else
    Array_filter
      (fun p => Array_some (fun t => String.eqb (toLowerCase t) (toLowerCase tag)) (tags p))
      (getAllPosts C).

Definition getAllTags (C : list Post) : list string :=
  Array_sort compareStrings (Set_from (flat_map tags C)).

Definition searchPosts (C : list Post) (query : string) : list Post :=
  let lowerQuery := toLowerCase query in
  Array_filter
    (fun p =>
       includes (toLowerCase (title p)) lowerQuery
       || includes (toLowerCase (summary p)) lowerQuery
       || Array_some (fun tag => includes (toLowerCase tag) lowerQuery) (tags p))
    (getAllPosts C).

(** [p.tags.filter(tag => post.tags.includes(tag)).length] *)
Definition matchingTags (source p : Post) : Z :=
  Z.of_nat (length (Array_filter (fun tag => Array_includes (tags source) tag) (tags p))).

Definition compareByScore (a b : ScoredPost) : Z := score b - score a.

Definition getRelatedPosts (C : list Post) (postId : string) (limit : Z)
  : list ScoredPost :=
  match getPostById C postId with
  | None => []
  | Some source =>
      let scored :=
        Array_sort compareByScore
          (Array_filter (fun p => 0 <? score p)
             (map (fun p => mkScored p (matchingTags source p))
                (Array_filter (fun p => negb (String.eqb (id p) postId)) C))) in
      Array_slice scored 0 limit
  end.

End Posts.

(* ===================================================================== *)
(** ** js/blog.js *)
(* ===================================================================== *)

Module Blog.
Import JS Posts.

(** What the element [blog-posts-container] shows. *)
Inductive Container :=
| Loading
| NoPostsFound
| Cards (shown : list Post).

(** The module-level variables of the page, the value of the search box
    ([None] when the page has no [search-input]) and the container
    ([None] when the page has no [blog-posts-container]). *)
Record State := mkState {
  currentTag : string;
  currentPage : Z;
  filteredPosts : list Post;
  searchInput : option string;
  container : option Container
}.

Definition postsPerPage : Z := 9.

(** [let currentTag = 'all'; let currentPage = 1; let filteredPosts = [];] *)
Definition initial (input : option string) (box : option Container) : State :=
  mkState "all" 1 [] input box.

(** The constant [postsToShow] of [displayPosts]. *)
Definition postsToShow {A : Type} (filteredPosts : list A) (currentPage : Z) : list A :=
  let startIndex := (currentPage - 1) * postsPerPage in
  let endIndex := startIndex + postsPerPage in
  Array_slice filteredPosts startIndex endIndex.

Definition displayPosts (st : State) : State :=
  match container st with
  | None => st
  | Some _ =>
      let shown := postsToShow (filteredPosts st) (currentPage st) in
      let box := match shown with [] => NoPostsFound | _ => Cards shown end in
      mkState (currentTag st) (currentPage st) (filteredPosts st) (searchInput st) (Some box)
  end.

Definition loadPosts (C : list Post) (st : State) : State :=
  displayPosts
    (mkState (currentTag st) (currentPage st) (getPostsByTag C (currentTag st))
             (searchInput st) (container st)).

Definition filterByTag (C : list Post) (tag : string) (st : State) : State :=
  loadPosts C
    (mkState tag 1 (filteredPosts st)
             (match searchInput st with Some _ => Some EmptyString | None => None end)
             (container st)).

Definition handleSearch (C : list Post) (query : string) (st : State) : State :=
  if String.eqb (trim query) "" then filterByTag C (currentTag st) st
  else
    displayPosts
      (mkState (currentTag st) 1 (searchPosts C query) (searchInput st) (container st)).

(** [Math.ceil(filteredPosts.length / postsPerPage)] *)
Definition totalPages (st : State) : Z :=
  (Z.of_nat (length (filteredPosts st)) + postsPerPage - 1) / postsPerPage.

Definition changePage (page : Z) (st : State) : State :=
  if (page <? 1) || (totalPages st <? page) then st
  else
    displayPosts
      (mkState (currentTag st) page (filteredPosts st) (searchInput st) (container st)).





(** What the handlers installed at [DOMContentLoaded] react to, once
    [loadPosts] has filled the page: a click on a tag button, the search
    box firing with the text it holds once the typing has paused, a click
    asking for a page. *)
Inductive Event :=
| TagClick (tag : string)
| SearchInput (value : string)
| PageClick (page : Z).

Definition step (C : list Post) (st : State) (e : Event) : State :=
  match e with
  | TagClick tag => filterByTag C tag st
  | SearchInput value =>
      handleSearch C value
        (mkState (currentTag st) (currentPage st) (filteredPosts st) (Some value)
                 (container st))
  | PageClick page => changePage page st
  end.

Definition run (C : list Post) (st : State) (events : list Event) : State :=
  fold_left (step C) events st.

End Blog.

(* ===================================================================== *)
(** ** js/theme.js *)
(* ===================================================================== *)

Module Theme.

(** The text of the [.theme-icon] element. *)
Inductive Icon := Sun | Moon.

(** What the script reads and writes: the entry [theme] of [localStorage],
    the attribute [data-theme] of the document element, the icon ([None]
    when the page has none), the operating system's answer to
    [(prefers-color-scheme: dark)], and whether the click handler of the
    toggle button has been installed. *)
Record State := mkState {
  storedTheme : option string;
  dataTheme : option string;
  themeIcon : option Icon;
  prefersDark : bool;
  toggleBound : bool
}.

(** Truthiness of what [localStorage.getItem] returns. *)
Definition truthy (v : option string) : bool :=
  match v with
  | Some s => negb (String.eqb s "")
  | None => false
  end.

Definition getTheme (st : State) : string :=
  match storedTheme st with
  | Some savedTheme =>
      if truthy (Some savedTheme) then savedTheme
      else if prefersDark st then "dark" else "light"
  | None => if prefersDark st then "dark" else "light"
  end.

Definition applyTheme (theme : string) (st : State) : State :=
  mkState (Some theme)
          (Some theme)
          (match themeIcon st with
           | Some _ => Some (if String.eqb theme "dark" then Sun else Moon)
           | None => None
           end)
          (prefersDark st)
          (toggleBound st).

Definition toggleTheme (st : State) : State :=
  let newTheme :=
    match dataTheme st with
    | Some currentTheme => if String.eqb currentTheme "dark" then "light" else "dark"
    | None => "dark"
    end%string in
  applyTheme newTheme st.

(** What can happen to a page that has the button [theme-toggle]: the
    document has loaded (the click handler is installed then), the button
    is pressed, the system's preference changes. *)
Inductive Event :=
| DOMContentLoaded
| ToggleClick
| ColorSchemeChange (matches : bool).

Definition step (st : State) (e : Event) : State :=
  match e with
  | DOMContentLoaded =>
      let st' := applyTheme (getTheme st) st in
      mkState (storedTheme st') (dataTheme st') (themeIcon st') (prefersDark st') true
  | ToggleClick =>
      if toggleBound st then toggleTheme st else st
  | ColorSchemeChange matches =>
      let st' := mkState (storedTheme st) (dataTheme st) (themeIcon st) matches (toggleBound st) in
      if negb (truthy (storedTheme st')) then
        applyTheme (if matches then "dark" else "light") st'
      else st'
  end.

Definition run (st : State) (trace : list Event) : State :=
  fold_left step trace st.

(** A page freshly opened with nothing persisted. *)
Definition fresh (dark : bool) (icon : option Icon) : State :=
  mkState None None icon dark false.

(** The page opened again: what [localStorage] holds stays, the document
    starts anew, the system may prefer otherwise. *)
Definition reload (st : State) (dark : bool) (icon : option Icon) : State :=
  mkState (storedTheme st) None icon dark false.

End Theme.

(* ===================================================================== *)
(** ** js/main.js *)
(* ===================================================================== *)

Module Main.
Import JS Posts.

(** What the element [posts-container] of the home page shows. *)
Inductive Container :=
| Loading
| NoPostsYet
| Cards (shown : list Post).

(** [loadRecentPosts], on the container of the page ([None] when the page
    has none). *)
Definition loadRecentPosts (C : list Post) (container : option Container)
  : option Container :=
  match container with
  | None => None
  | Some _ =>
      let recentPosts := getRecentPosts C 6 in
      match recentPosts with
      | [] => Some NoPostsYet
      | _ => Some (Cards recentPosts)
      end
  end.

End Main.

(* ===================================================================== *)
(** ** js/post.js

    The page of one post.  The identifier read from the address
    ([URLSearchParams.get], [None] for [null]) and the outcome of fetching
    the content are inputs; rendering the Markdown text and formatting the
    date are left to the libraries, and the page records what was handed
    to them. *)
(* ===================================================================== *)

Module PostPage.
Import JS Posts.

(** The elements of [post.html] that the script writes to are taken to be
    there, but for the section of related posts, which the script itself
    looks for. *)

(** What the element [post-body] holds. *)
Inductive Body :=
| Placeholder
| Message (text : string)
| Markdown (text : string).

(** What the element [post-date] holds. *)
Inductive DateText :=
| NoDate
| formatDate (dateString : string).

(** The section of related posts. *)
Inductive Related :=
| Untouched
| Hidden
| RelatedCards (cards : list ScoredPost).

Record Page := mkPage {
  documentTitle : string;
  description : string;
  postTitle : string;
  postDate : DateText;
  postReadingTime : string;
  postTags : list string;
  postBody : Body;
  related : option Related
}.

(** How [fetch(post.content)] ends: a response that is [ok] with its text,
    a response that is not, or a rejection. *)
Inductive Response :=
| Ok (text : string)
| NotOk
| Rejected.

Definition showError (message : string) (pg : Page) : Page :=
  mkPage (documentTitle pg) (description pg) "Error" (postDate pg)
         (postReadingTime pg) (postTags pg) (Message message) (related pg).

Definition renderMarkdown (markdown : string) (pg : Page) : Page :=
  mkPage (documentTitle pg) (description pg) (postTitle pg) (postDate pg)
         (postReadingTime pg) (postTags pg) (Markdown markdown) (related pg).

Definition loadRelatedPosts (C : list Post) (postId : string) (pg : Page) : Page :=
  match related pg with
  | None => pg
  | Some _ =>
      let relatedPosts := getRelatedPosts C postId 3 in
      mkPage (documentTitle pg) (description pg) (postTitle pg) (postDate pg)
             (postReadingTime pg) (postTags pg) (postBody pg)
             (Some (match relatedPosts with
                    | [] => Hidden
                    | _ => RelatedCards relatedPosts
                    end))
  end.

Definition loadPost (C : list Post) (urlId : option string)
           (fetch : string -> Response) (pg : Page) : Page :=
  match urlId with
  | None => showError "Post not found" pg
  | Some postId =>
      if String.eqb postId "" then showError "Post not found" pg
      else
        match getPostById C postId with
        | None => showError "Post not found" pg
        | Some post =>
            let pg1 :=
              mkPage (title post ++ " - TechBlog") (summary post) (title post)
                     (formatDate (date post)) (readingTime post) (tags post)
                     (postBody pg) (related pg) in
            let pg2 :=
              match fetch (content post) with
              | Ok markdown => renderMarkdown markdown pg1
              | NotOk | Rejected =>
                  showError "Failed to load post content. Please try again later." pg1
              end in
            loadRelatedPosts C postId pg2
        end
  end.

(** The page as [post.html] serves it. *)
Definition blank (hasRelated : bool) : Page :=
  mkPage "" "" "" NoDate "" [] Placeholder (if hasRelated then Some Untouched else None).

End PostPage.

(* ===================================================================== *)
(** ** The query functions over a store of arrays

    [Array.prototype.sort] sorts its receiver in place, so whether a query
    leaves [POSTS] alone depends on which array it sorts.  Here arrays live
    in a store and are passed by reference; every query is written again
    with the allocations and the updates of the source.  The records of the
    catalog and their [tags] are only ever read. *)
(* ===================================================================== *)

Module Store.
Import JS Posts.

Inductive Arr :=
| PostArr (l : list Post)
| ScoredArr (l : list ScoredPost)
| StringArr (l : list string).

(** Element types of the arrays of the store. *)
Class Elem (A : Type) := {
  toArr : list A -> Arr;
  ofArr : Arr -> option (list A);
  ofArr_toArr : forall l, ofArr (toArr l) = Some l
}.

#[export] Instance Elem_Post : Elem Post := {|
  toArr := PostArr;
  ofArr := fun a => match a with PostArr l => Some l | _ => None end;
  ofArr_toArr := fun l => eq_refl
|}.

#[export] Instance Elem_ScoredPost : Elem ScoredPost := {|
  toArr := ScoredArr;
  ofArr := fun a => match a with ScoredArr l => Some l | _ => None end;
  ofArr_toArr := fun l => eq_refl
|}.

#[export] Instance Elem_string : Elem string := {|
  toArr := StringArr;
  ofArr := fun a => match a with StringArr l => Some l | _ => None end;
  ofArr_toArr := fun l => eq_refl
|}.

(** Computations that read and update the store. *)
Definition M (R : Type) : Type := gmap nat Arr -> R * gmap nat Arr.

#[export] Instance M_ret : MRet M := fun _ x h => (x, h).
#[export] Instance M_bind : MBind M :=
  fun _ _ k c h => let '(x, h') := c h in k x h'.
#[export] Instance M_fmap : FMap M :=
  fun _ _ f c h => let '(x, h') := c h in (f x, h').

Section Primitives.
Context {A : Type} `{Elem A}.

(** A new array, at a reference the store does not hold yet. *)
Definition alloc (l : list A) : M nat :=
  fun h => let r := fresh (dom h) in (r, <[r := toArr l]> h).

Definition read (r : nat) : M (list A) :=
  fun h => (match h !! r ≫= ofArr with Some l => l | None => [] end, h).

Definition write (r : nat) (l : list A) : M unit :=
  fun h => (tt, <[r := toArr l]> h).

(** [[...arr]] *)
Definition spread (r : nat) : M nat :=
  l ← read r; alloc l.

(** [arr.sort(comparefn)]: sorts [arr] itself and returns it. *)
Definition sort (comparefn : A -> A -> Z) (r : nat) : M nat :=
  l ← read r; _ ← write r (Array_sort comparefn l); mret r.

(** [arr.filter(f)] *)
Definition filter_ (f : A -> bool) (r : nat) : M nat :=
  l ← read r; alloc (Array_filter f l).

(** [arr.slice(start, end)] *)
Definition slice (r : nat) (start end_ : Z) : M nat :=
  l ← read r; alloc (Array_slice l start end_).

(** [arr.find(f)] *)
Definition find_ (f : A -> bool) (r : nat) : M (option A) :=
  l ← read r; mret (Array_find f l).
End Primitives.

(** [arr.map(f)] *)
Definition map_ {A B : Type} `{Elem A} `{Elem B} (f : A -> B) (r : nat) : M nat :=
  l ← read r; alloc (map f l).

Section Queries.
(** The reference held by the constant [POSTS]. *)
Variable POSTS : nat.

Definition getAllPosts : M nat :=
  copy ← spread (A:=Post) POSTS; sort compareByDate copy.

Definition getPostById (postId : string) : M (option Post) :=
  find_ (fun p => String.eqb (id p) postId) POSTS.

Definition getRecentPosts (limit : Z) : M nat :=
  all ← getAllPosts; slice (A:=Post) all 0 limit.

Definition getPostsByTag (tag : string) : M nat :=
  if String.eqb tag "all" then getAllPosts
  else
    all ← getAllPosts;
    filter_
      (fun p : Post =>
         Array_some (fun t => String.eqb (toLowerCase t) (toLowerCase tag)) (tags p))
      all.

Definition getAllTags : M nat :=
  posts ← read (A:=Post) POSTS;
  arr ← alloc (Set_from (flat_map tags posts));
  sort compareStrings arr.

Definition searchPosts (query : string) : M nat :=
  let lowerQuery := toLowerCase query in
  all ← getAllPosts;
  filter_
    (fun p : Post =>
       includes (toLowerCase (title p)) lowerQuery
       || includes (toLowerCase (summary p)) lowerQuery
       || Array_some (fun tag => includes (toLowerCase tag) lowerQuery) (tags p))
    all.

Definition getRelatedPosts (postId : string) (limit : Z) : M nat :=
  found ← getPostById postId;
  match found with
  | None => alloc (A:=ScoredPost) []
  | Some source =>
      others ← filter_ (fun p : Post => negb (String.eqb (id p) postId)) POSTS;
      withScore ← map_ (fun p => mkScored p (matchingTags source p)) others;
      positive ← filter_ (fun p : ScoredPost => 0 <? score p) withScore;
      scored ← sort compareByScore positive;
      slice (A:=ScoredPost) scored 0 limit
  end.
End Queries.

(** The calls a page can make, what a call returns (a reference to an array,
    or a record or [undefined]), and what the caller then sees. *)
Inductive Query :=
| GetAllPosts
| GetPostById (postId : string)
| GetRecentPosts (limit : Z)
| GetPostsByTag (tag : string)
| GetAllTags
| SearchPosts (query : string)
| GetRelatedPosts (postId : string) (limit : Z).

Inductive Returned :=
| RArray (r : nat)
| RPost (p : option Post).

Inductive Answer :=
| AArray (a : Arr)
| APost (p : option Post).

Definition call (POSTS : nat) (q : Query) : M Returned :=
  match q with
  | GetAllPosts => RArray <$> getAllPosts POSTS
  | GetPostById postId => RPost <$> getPostById POSTS postId
  | GetRecentPosts limit => RArray <$> getRecentPosts POSTS limit
  | GetPostsByTag tag => RArray <$> getPostsByTag POSTS tag
  | GetAllTags => RArray <$> getAllTags POSTS
  | SearchPosts query => RArray <$> searchPosts POSTS query
  | GetRelatedPosts postId limit => RArray <$> getRelatedPosts POSTS postId limit
  end.

Definition observe (h : gmap nat Arr) (ret : Returned) : option Answer :=
  match ret with
  | RArray r => AArray <$> h !! r
  | RPost p => Some (APost p)
  end.

(** The same calls on the functions of [Posts], which take the contents of
    the catalog. *)
Definition answer (C : list Post) (q : Query) : Answer :=
  match q with
  | GetAllPosts => AArray (PostArr (Posts.getAllPosts C))
  | GetPostById postId => APost (Posts.getPostById C postId)
  | GetRecentPosts limit => AArray (PostArr (Posts.getRecentPosts C limit))
  | GetPostsByTag tag => AArray (PostArr (Posts.getPostsByTag C tag))
  | GetAllTags => AArray (StringArr (Posts.getAllTags C))
  | SearchPosts query => AArray (PostArr (Posts.searchPosts C query))
  | GetRelatedPosts postId limit => AArray (ScoredArr (Posts.getRelatedPosts C postId limit))
  end.

End Store.

Import JS Posts.

(* ===================================================================== *)
(** ** Notions used in the statements *)
(* ===================================================================== *)

(** Sorting by a numeric key, largest first: the comparator
    [(a, b) => key(b) - key(a)]. *)
Section ByKey.
Context {A : Type}.
Variable key : A -> Z.

Definition byKeyDesc (a b : A) : Z := key b - key a.

(** [a] may stand before [b]. *)
Definition keyGe (a b : A) : Prop := key b <= key a.

(** The elements of key [k], in the order of the list. *)
Definition withKey (k : Z) (l : list A) : list A :=
  List.filter (fun a => key a =? k) l.
End ByKey.

(** The calendar order of days given by year, month and day. *)
Definition earlier (a b : Z * Z * Z) : Prop :=
  let '(y, m, d) := a in
  let '(y', m', d') := b in
  y < y' \/ (y = y' /\ (m < m' \/ (m = m' /\ d < d'))).

(** [sub] occurs in [s]. *)
Definition isSubstring (sub s : string) : Prop :=
  exists before after : string, s = (before ++ sub ++ after)%string.

(** The time value of the date of a post. *)
Definition timeValue (p : Post) : Z :=
  match Date_parse (date p) with
  | Some t => t
  | None => 0
  end.

(** Every date of the catalog is well formed. *)
Definition validDates (C : list Post) : Prop :=
  Forall (fun p => Date_parse (date p) <> None) C.

(** Newest first: every post is at least as recent as the posts after it. *)
Definition newestFirst (l : list Post) : Prop :=
  StronglySorted (keyGe timeValue) l.

(** Some tag of [p] is [t] up to letter case. *)
Definition hasTagIgnoringCase (t : string) (p : Post) : Prop :=
  exists tag, In tag (tags p) /\ toLowerCase tag = toLowerCase t.

(** The lowercased query occurs in the lowercased title, summary or some
    lowercased tag of [p]. *)
Definition matchesQuery (q : string) (p : Post) : Prop :=
  isSubstring (toLowerCase q) (toLowerCase (title p))
  \/ isSubstring (toLowerCase q) (toLowerCase (summary p))
  \/ exists tag, In tag (tags p) /\ isSubstring (toLowerCase q) (toLowerCase tag).

(** The test of [getPostsByTag] on one post. *)
Definition tagFilter (tag : string) (p : Post) : bool :=
  Array_some (fun t => String.eqb (toLowerCase t) (toLowerCase tag)) (tags p).

(** A small catalog that is not listed by date, with two posts of one date,
    tags that differ in letter case only, a repeated tag and a tag [all]. *)
Definition examplePost (i d : string) (ts : list string) : Post :=
  mkPost i ("Post " ++ i) d ("About " ++ i) ts ("posts/" ++ i ++ ".md") "1 min read".

Definition sample : list Post := [
  examplePost "a" "2026-01-01" ["C++"; "all"];
  examplePost "b" "2026-03-01" ["c++"];
  examplePost "c" "2026-01-01" ["Rust"; "C++"; "C++"];
  examplePost "d" "2026-02-01" ["Go"; "Rust"]
]%string.

(** The test of [searchPosts] on one post. *)
Definition queryFilter (query : string) (p : Post) : bool :=
  let lowerQuery := toLowerCase query in
  includes (toLowerCase (title p)) lowerQuery
  || includes (toLowerCase (summary p)) lowerQuery
  || Array_some (fun tag => includes (toLowerCase tag) lowerQuery) (tags p).



(** [p] has a tag that is, letter for letter, a tag of [source]. *)
Definition sharesTag (source p : Post) : Prop :=
  exists t, In t (tags p) /\ In t (tags source).

(** Higher score first and, at equal score, the more recent post first. *)
Definition scoreThenDate (a b : ScoredPost) : Prop :=
  score b < score a
  \/ (score a = score b /\ timeValue (post b) <= timeValue (post a)).

(** The candidates of [getRelatedPosts] before they are ranked: the other
    posts of the catalog that score above 0, in catalog order. *)
Definition candidates (C : list Post) (postId : string) (source : Post) : list ScoredPost :=
  Array_filter (fun p => 0 <? score p)
    (map (fun p => mkScored p (matchingTags source p))
       (Array_filter (fun p => negb (String.eqb (id p) postId)) C)).

(** The other posts of the catalog whose score is [s], in catalog order. *)
Definition othersOfScore (C : list Post) (postId : string) (source : Post) (s : Z) : list Post :=
  List.filter (fun p => negb (String.eqb (id p) postId) && (matchingTags source p =? s)) C.

(** Run from the store [h], a call returns a new array holding [a] and
    leaves every array of the store [h0] as it is. *)
Definition returnsNew (h0 : gmap nat Store.Arr) (c : Store.M nat) (h : gmap nat Store.Arr)
           (a : Store.Arr) : Prop :=
  exists r h', c h = (r, h') /\ h0 ⊆ h' /\ h0 !! r = None /\ h' !! r = Some a.

(** Twenty posts, named [A] to [T]. *)
Definition twenty : list Post :=
  map (fun n => examplePost (String (ascii_of_nat (65 + n)) EmptyString) "2026-01-01" [])
      (seq 0 20).

(** [a] stands before [b] in the order of the default sort. *)
Definition stringLt (a b : string) : Prop := String.compare a b = Lt.

(** The page is the first one or one of the pages that exist. *)
Definition pageInRange (st : Blog.State) : Prop :=
  Blog.currentPage st = 1 \/ 1 <= Blog.currentPage st <= Blog.totalPages st.

(** What the container shows for the posts and the page of a state. *)
Definition shownBox (st : Blog.State) : Blog.Container :=
  match Blog.postsToShow (Blog.filteredPosts st) (Blog.currentPage st) with
  | [] => Blog.NoPostsFound
  | shown => Blog.Cards shown
  end.





(** A theme the switch itself writes. *)
Definition lightOrDark (theme : option string) : Prop :=
  theme = Some "light"%string \/ theme = Some "dark"%string.


(** The icon, where there is one, is the sun under [dark] and the moon
    otherwise. *)
Definition iconMatches (st : Theme.State) : Prop :=
  forall icon theme,
    Theme.themeIcon st = Some icon -> Theme.dataTheme st = Some theme ->
    icon = if String.eqb theme "dark" then Theme.Sun else Theme.Moon.

(** The other of the two themes. *)
Definition otherTheme (theme : option string) : option string :=
  match theme with
  | Some t => Some (if String.eqb t "dark" then "light" else "dark")%string
  | None => Some "dark"%string
  end.


(* ===================================================================== *)
(** ** Facts about the built-ins *)
(* ===================================================================== *)

(** *** Sorting *)

Section SortFacts.
Context {A : Type}.
Variable comparefn : A -> A -> Z.

Lemma sort_insert_perm x l : Permutation (sort_insert comparefn x l) (x :: l).
Proof.
  induction l as [|y l IH]; simpl; [reflexivity|].
  destruct (comparefn x y <=? 0); [reflexivity|].
  rewrite IH. apply perm_swap.
Qed.

Lemma Array_sort_perm l : Permutation (Array_sort comparefn l) l.
Proof.
  induction l as [|x l IH]; simpl; [reflexivity|].
  rewrite sort_insert_perm. now constructor.
Qed.

Lemma In_Array_sort x l : In x (Array_sort comparefn l) <-> In x l.
Proof.
  split; apply Permutation_in;
    [apply Array_sort_perm | symmetry; apply Array_sort_perm].
Qed.

Lemma length_Array_sort l : length (Array_sort comparefn l) = length l.
Proof. apply Permutation_length, Array_sort_perm. Qed.

(** Only the values of the comparator on the elements of the array matter. *)
Lemma sort_insert_ext (other : A -> A -> Z) x l :
  (forall y, In y l -> comparefn x y = other x y) ->
  sort_insert comparefn x l = sort_insert other x l.
Proof.
  induction l as [|y l IH]; simpl; intros Hxy; [reflexivity|].
  rewrite (Hxy y) by now left.
  rewrite IH by (intros; apply Hxy; now right).
  reflexivity.
Qed.
End SortFacts.

Lemma Array_sort_ext {A : Type} (c1 c2 : A -> A -> Z) l :
  (forall x y, In x l -> In y l -> c1 x y = c2 x y) ->
  Array_sort c1 l = Array_sort c2 l.
Proof.
  induction l as [|x l IH]; simpl; intros Hc; [reflexivity|].
  rewrite IH by (intros; apply Hc; now right).
  apply sort_insert_ext. intros y Hy.
  apply Hc; [now left | right; now apply In_Array_sort in Hy].
Qed.

(** The sort commutes with an injection of the elements into another type. *)
Lemma Array_sort_map {A B : Type} (f : A -> B) (cA : A -> A -> Z) (cB : B -> B -> Z) l :
  (forall x y, cB (f x) (f y) = cA x y) ->
  Array_sort cB (map f l) = map f (Array_sort cA l).
Proof.
  intros Hc. induction l as [|x l IH]; simpl; [reflexivity|].
  rewrite IH. generalize (Array_sort cA l) as s.
  induction s as [|y s IHs]; simpl; [reflexivity|].
  rewrite Hc. destruct (cA x y <=? 0); simpl; [reflexivity|].
  now rewrite IHs.
Qed.

Section SortByKey.
Context {A : Type}.
Variable key : A -> Z.

Lemma sort_insert_sorted x l :
  StronglySorted (keyGe key) l -> StronglySorted (keyGe key) (sort_insert (byKeyDesc key) x l).
Proof.
  induction 1 as [|y l Hl IH Hy]; simpl.
  - repeat constructor.
  - unfold byKeyDesc at 1. destruct (Z.leb_spec (key y - key x) 0) as [Hle|Hgt].
    + constructor; [now constructor|].
      constructor; [unfold keyGe; lia|].
      eapply List.Forall_impl; [|exact Hy]. unfold keyGe. intros; lia.
    + constructor; [exact IH|].
      rewrite List.Forall_forall. intros z Hz.
      apply (Permutation_in _ (sort_insert_perm _ x l)) in Hz.
      destruct Hz as [<-|Hz]; [unfold keyGe; lia|].
      rewrite List.Forall_forall in Hy. now apply Hy.
Qed.

Lemma Array_sort_sorted l : StronglySorted (keyGe key) (Array_sort (byKeyDesc key) l).
Proof.
  induction l as [|x l IH]; simpl; [constructor|].
  now apply sort_insert_sorted.
Qed.

Lemma sort_insert_withKey k x l :
  withKey key k (sort_insert (byKeyDesc key) x l) = withKey key k (x :: l).
Proof.
  induction l as [|y l IH]; [reflexivity|].
  cbn [sort_insert]. unfold byKeyDesc at 1.
  destruct (Z.leb_spec (key y - key x) 0) as [Hle|Hgt]; [reflexivity|].
  unfold withKey in *. cbn [List.filter] in *. rewrite IH.
  destruct (Z.eqb_spec (key x) k), (Z.eqb_spec (key y) k); try reflexivity; lia.
Qed.

(** Stability: elements of equal key keep their order. *)
Lemma Array_sort_stable k l :
  withKey key k (Array_sort (byKeyDesc key) l) = withKey key k l.
Proof.
  induction l as [|x l IH]; [reflexivity|].
  cbn [Array_sort]. rewrite sort_insert_withKey.
  unfold withKey in *. cbn [List.filter]. now rewrite IH.
Qed.

Lemma withKey_In k x l : In x (withKey key k l) <-> In x l /\ key x = k.
Proof. unfold withKey. rewrite filter_In, Z.eqb_eq. reflexivity. Qed.

(** A list that is sorted by key is fixed by its elements of each key:
    two stable sorts of one list agree. *)
Lemma sorted_withKey_unique l1 l2 :
  StronglySorted (keyGe key) l1 -> StronglySorted (keyGe key) l2 ->
  (forall k, withKey key k l1 = withKey key k l2) ->
  l1 = l2.
Proof.
  intros H1. revert l2.
  induction H1 as [|x l1 Hs1 IH Hx]; intros l2 H2 Heq.
  - destruct l2 as [|y l2]; [reflexivity|].
    specialize (Heq (key y)). unfold withKey in Heq. simpl in Heq.
    rewrite Z.eqb_refl in Heq. discriminate.
  - destruct H2 as [|y l2 Hs2 Hy].
    + specialize (Heq (key x)). unfold withKey in Heq. simpl in Heq.
      rewrite Z.eqb_refl in Heq. discriminate.
    + rewrite List.Forall_forall in Hx, Hy.
      assert (Hk : key x = key y).
      { destruct (Z.eq_dec (key x) (key y)) as [|Hne]; [assumption|exfalso].
        assert (Hxin : In x (y :: l2)).
        { apply (withKey_In (key x)). rewrite <- Heq.
          apply withKey_In. split; [now left|reflexivity]. }
        assert (Hyin : In y (x :: l1)).
        { apply (withKey_In (key y)). rewrite Heq.
          apply withKey_In. split; [now left|reflexivity]. }
        destruct Hxin as [->|Hxin]; [now apply Hne|].
        destruct Hyin as [->|Hyin]; [now apply Hne|].
        specialize (Hx _ Hyin). specialize (Hy _ Hxin).
        unfold keyGe in *. lia. }
      assert (Hxy : x = y).
      { specialize (Heq (key x)). unfold withKey in Heq. simpl in Heq.
        rewrite <- Hk, Z.eqb_refl in Heq. now injection Heq. }
      subst y. f_equal. apply IH; [assumption|].
      intros k. specialize (Heq k). unfold withKey in *. simpl in Heq.
      destruct (key x =? k); [now injection Heq | assumption].
Qed.

Theorem stable_sort_unique l s :
  StronglySorted (keyGe key) s ->
  (forall k, withKey key k s = withKey key k l) ->
  s = Array_sort (byKeyDesc key) l.
Proof.
  intros Hs Hk. apply sorted_withKey_unique; [assumption | apply Array_sort_sorted |].
  intros k. now rewrite Hk, Array_sort_stable.
Qed.
End SortByKey.

(** *** Dates *)

Example Date_parse_examples :
  Date_parse "1970-01-01" = Some 0
  /\ Date_parse "2026-01-28" = Some 1769558400000
  /\ Date_parse "2024-02-29" = Some 1709164800000
  /\ Date_parse "2026-02-29" = None
  /\ Date_parse "2026-1-28" = None
  /\ Date_parse "2026-01" = Some 1767225600000.
Proof. repeat split. Qed.

Lemma DayFromYear_succ y :
  DayFromYear (y + 1) = DayFromYear y + 365 + (if InLeapYear y then 1 else 0).
Proof.
  unfold DayFromYear, InLeapYear.
  assert (H4 : (y + 1 - 1969) / 4 = (y - 1969) / 4 + (if y mod 4 =? 0 then 1 else 0))
    by (destruct (Z.eqb_spec (y mod 4) 0); Z.div_mod_to_equations; lia).
  assert (H100 : (y + 1 - 1901) / 100
                 = (y - 1901) / 100 + (if y mod 100 =? 0 then 1 else 0))
    by (destruct (Z.eqb_spec (y mod 100) 0); Z.div_mod_to_equations; lia).
  assert (H400 : (y + 1 - 1601) / 400
                 = (y - 1601) / 400 + (if y mod 400 =? 0 then 1 else 0))
    by (destruct (Z.eqb_spec (y mod 400) 0); Z.div_mod_to_equations; lia).
  assert (Ha : y mod 400 = 0 -> y mod 100 = 0) by (intros; Z.div_mod_to_equations; lia).
  assert (Hb : y mod 100 = 0 -> y mod 4 = 0) by (intros; Z.div_mod_to_equations; lia).
  rewrite H4, H100, H400.
  destruct (Z.eqb_spec (y mod 4) 0), (Z.eqb_spec (y mod 100) 0),
    (Z.eqb_spec (y mod 400) 0); cbn [andb orb negb]; lia.
Qed.

Lemma DayFromYear_mono y y' : y <= y' -> DayFromYear y <= DayFromYear y'.
Proof. unfold DayFromYear. intros. Z.div_mod_to_equations. lia. Qed.

Lemma month_cases m :
  1 <= m <= 12 ->
  m = 1 \/ m = 2 \/ m = 3 \/ m = 4 \/ m = 5 \/ m = 6 \/ m = 7 \/ m = 8 \/ m = 9
  \/ m = 10 \/ m = 11 \/ m = 12.
Proof. lia. Qed.

(** Replaces the day counts of given months by their values. *)
Ltac compute_days :=
  repeat match goal with
  | |- context [DaysBeforeMonth ?l ?m] =>
      let v := eval vm_compute in (DaysBeforeMonth l m) in
      change (DaysBeforeMonth l m) with v
  | H : context [DaysInMonth ?l ?m] |- _ =>
      let v := eval vm_compute in (DaysInMonth l m) in
      change (DaysInMonth l m) with v in H
  end.

(** Within a year, day numbers follow month and day. *)
Lemma dayOfYear_lt leap m d m' d' :
  1 <= m <= 12 -> 1 <= d <= DaysInMonth leap m ->
  1 <= m' <= 12 -> 1 <= d' <= DaysInMonth leap m' ->
  m < m' \/ (m = m' /\ d < d') ->
  DaysBeforeMonth leap m + d < DaysBeforeMonth leap m' + d'.
Proof.
  intros Hm Hd Hm' Hd' Hlt.
  apply month_cases in Hm. apply month_cases in Hm'.
  destruct leap;
    repeat (destruct Hm as [->|Hm]); try subst m;
    repeat (destruct Hm' as [->|Hm']); try subst m';
    compute_days; lia.
Qed.

Lemma dayOfYear_bound leap m d :
  1 <= m <= 12 -> 1 <= d <= DaysInMonth leap m ->
  0 <= DaysBeforeMonth leap m + (d - 1) < 365 + (if leap then 1 else 0).
Proof.
  intros Hm Hd. apply month_cases in Hm.
  destruct leap; repeat (destruct Hm as [->|Hm]); try subst m; compute_days; lia.
Qed.

Lemma MakeDate_Some y m d t :
  MakeDate y m d = Some t ->
  1 <= m <= 12 /\ 1 <= d <= DaysInMonth (InLeapYear y) m
  /\ t = (DayFromYear y + DaysBeforeMonth (InLeapYear y) m + (d - 1)) * msPerDay.
Proof.
  unfold MakeDate. cbv zeta.
  destruct (Z.leb_spec 1 m), (Z.leb_spec m 12), (Z.leb_spec 1 d),
    (Z.leb_spec d (DaysInMonth (InLeapYear y) m)); simpl; try discriminate.
  intros [= <-]. repeat split; assumption.
Qed.

Lemma MakeDate_lt y m d t y' m' d' t' :
  MakeDate y m d = Some t -> MakeDate y' m' d' = Some t' ->
  earlier (y, m, d) (y', m', d') -> t < t'.
Proof.
  intros Ht Ht' He.
  apply MakeDate_Some in Ht. destruct Ht as (Hm & Hd & ->).
  apply MakeDate_Some in Ht'. destruct Ht' as (Hm' & Hd' & ->).
  unfold msPerDay. apply Z.mul_lt_mono_pos_r; [lia|].
  destruct He as [Hy | [<- Hmd]].
  - pose proof (dayOfYear_bound _ _ _ Hm Hd) as Hb.
    pose proof (dayOfYear_bound _ _ _ Hm' Hd') as Hb'.
    pose proof (DayFromYear_succ y) as Hsucc.
    pose proof (DayFromYear_mono (y + 1) y' ltac:(lia)) as Hmono.
    lia.
  - pose proof (dayOfYear_lt _ _ _ _ _ Hm Hd Hm' Hd' Hmd). lia.
Qed.

(** The time values of two well-formed dates compare as the days do in the
    calendar. *)
Lemma Date_parse_calendar a b fa fb ta tb :
  Date_fields a = Some fa -> Date_fields b = Some fb ->
  Date_parse a = Some ta -> Date_parse b = Some tb ->
  (ta < tb <-> earlier fa fb) /\ (ta = tb <-> fa = fb).
Proof.
  unfold Date_parse. intros -> -> Ha Hb.
  destruct fa as [[y m] d], fb as [[y' m'] d'].
  assert (Hcases : earlier (y, m, d) (y', m', d') \/ (y, m, d) = (y', m', d')
                   \/ earlier (y', m', d') (y, m, d)).
  { unfold earlier.
    destruct (Z.lt_trichotomy y y') as [?|[?|?]]; [lia| |lia].
    destruct (Z.lt_trichotomy m m') as [?|[?|?]]; [lia| |lia].
    destruct (Z.lt_trichotomy d d') as [?|[?|?]]; [lia| |lia].
    right; left. congruence. }
  assert (Hirr : forall f, ~ earlier f f).
  { intros [[? ?] ?]. unfold earlier. lia. }
  destruct Hcases as [He|[He|He]].
  - pose proof (MakeDate_lt _ _ _ _ _ _ _ _ Ha Hb He).
    split; split; try tauto; try lia.
    intros Heq. rewrite Heq in He. now apply Hirr in He.
  - assert (ta = tb) by (injection He as -> -> ->; congruence).
    split; split; try tauto; try lia.
    intros He'. rewrite He in He'. now apply Hirr in He'.
  - pose proof (MakeDate_lt _ _ _ _ _ _ _ _ Hb Ha He).
    split; split; try tauto; try lia.
    + intros He'. exfalso. unfold earlier in *. lia.
    + intros Heq. rewrite Heq in He. now apply Hirr in He.
Qed.

(** *** Strings *)

Lemma startsWith_spec s sub :
  startsWith s sub = true <-> exists after, s = (sub ++ after)%string.
Proof.
  revert s. induction sub as [|c sub IH]; intros s; simpl.
  - split; [intros _; now exists s | reflexivity].
  - destruct s as [|d s].
    + split; [discriminate | intros [after Heq]; discriminate].
    + rewrite andb_true_iff, IH. split.
      * intros [Hc [after ->]]. apply Ascii.eqb_eq in Hc. subst. now exists after.
      * intros [after Heq]. injection Heq as -> ->.
        split; [apply Ascii.eqb_refl | now exists after].
Qed.

Lemma includes_spec s sub : includes s sub = true <-> isSubstring sub s.
Proof.
  unfold isSubstring. induction s as [|d s IH].
  - simpl. rewrite orb_false_r, startsWith_spec. split.
    + intros [after ->]. now exists EmptyString, after.
    + intros [before [after Heq]]. destruct before; [now exists after | discriminate].
  - cbn [includes]. rewrite orb_true_iff, IH, startsWith_spec. split.
    + intros [[after ->] | [before [after ->]]].
      * now exists EmptyString, after.
      * now exists (String d before), after.
    + intros [before [after Heq]]. destruct before as [|b before].
      * left. now exists after.
      * right. injection Heq as -> ->. now exists before, after.
Qed.

Lemma includes_empty s : includes s "" = true.
Proof. destruct s; reflexivity. Qed.

(** *** Filtering *)

Lemma Array_filter_sublist {A : Type} (f : A -> bool) l :
  sublist (Array_filter f l) l.
Proof.
  induction l as [|x l IH]; simpl; [constructor|].
  destruct (f x); now constructor.
Qed.

Lemma Array_filter_sorted {A : Type} (R : A -> A -> Prop) (f : A -> bool) l :
  StronglySorted R l -> StronglySorted R (Array_filter f l).
Proof.
  induction 1 as [|x l Hl IH Hx]; simpl; [constructor|].
  destruct (f x); [|assumption].
  constructor; [assumption|].
  rewrite List.Forall_forall in *. intros y Hy.
  apply filter_In in Hy. now apply Hx.
Qed.

Lemma Array_some_spec {A : Type} (f : A -> bool) l :
  Array_some f l = true <-> exists x, In x l /\ f x = true.
Proof. apply existsb_exists. Qed.

Lemma Array_includes_spec l x : Array_includes l x = true <-> In x l.
Proof.
  unfold Array_includes. rewrite existsb_exists. split.
  - intros [y [Hy He]]. apply String.eqb_eq in He. now subst.
  - intros Hx. exists x. split; [assumption | apply String.eqb_refl].
Qed.

(* ===================================================================== *)
(** ** The listing, newest first *)
(* ===================================================================== *)

Lemma compareByDate_valid a b :
  Date_parse (date a) <> None -> Date_parse (date b) <> None ->
  compareByDate a b = byKeyDesc timeValue a b.
Proof.
  unfold compareByDate, byKeyDesc, timeValue. intros Ha Hb.
  destruct (Date_parse (date a)), (Date_parse (date b)); congruence.
Qed.

Lemma getAllPosts_byKey C :
  validDates C -> getAllPosts C = Array_sort (byKeyDesc timeValue) C.
Proof.
  intros Hv. apply Array_sort_ext. intros x y Hx Hy.
  unfold validDates in Hv. rewrite List.Forall_forall in Hv.
  apply compareByDate_valid; now apply Hv.
Qed.

Lemma getAllPosts_perm C : Permutation (getAllPosts C) C.
Proof. apply Array_sort_perm. Qed.

Lemma In_getAllPosts C p : In p (getAllPosts C) <-> In p C.
Proof. apply In_Array_sort. Qed.

Lemma getAllPosts_newestFirst C : validDates C -> newestFirst (getAllPosts C).
Proof.
  intros Hv. rewrite getAllPosts_byKey by assumption. apply Array_sort_sorted.
Qed.

Lemma StronglySorted_before {A : Type} (R : A -> A -> Prop) l1 a l2 b l3 :
  StronglySorted R (l1 ++ a :: l2 ++ b :: l3) -> R a b.
Proof.
  induction l1 as [|x l1 IH]; simpl; intros Hs; inversion Hs as [|? ? Hl Hx]; subst.
  - rewrite List.Forall_forall in Hx. apply Hx, in_or_app. right. now left.
  - now apply IH.
Qed.

Lemma timeValue_calendar a b fa fb :
  Date_parse (date a) <> None -> Date_parse (date b) <> None ->
  Date_fields (date a) = Some fa -> Date_fields (date b) = Some fb ->
  (timeValue a < timeValue b <-> earlier fa fb)
  /\ (timeValue a = timeValue b <-> fa = fb).
Proof.
  intros Ha Hb Hfa Hfb. unfold timeValue.
  destruct (Date_parse (date a)) as [ta|] eqn:Hta; [|contradiction].
  destruct (Date_parse (date b)) as [tb|] eqn:Htb; [|contradiction].
  exact (Date_parse_calendar _ _ _ _ _ _ Hfa Hfb Hta Htb).
Qed.

(** C4: for every catalog [C] with well-formed dates, [getAllPosts C] is a
    permutation of [C], is sorted by date from the newest to the oldest (no
    post stands before a post of a later day of the calendar), and the sort
    is stable: the posts of any one date stand in [getAllPosts C] in the
    order they have in [C]. *)
Theorem getAllPosts_sorted_stable_permutation (C : list Post) :
  validDates C ->
  Permutation (getAllPosts C) C
  /\ newestFirst (getAllPosts C)
  /\ (forall l1 a l2 b l3 fa fb,
        getAllPosts C = l1 ++ a :: l2 ++ b :: l3 ->
        Date_fields (date a) = Some fa -> Date_fields (date b) = Some fb ->
        ~ earlier fa fb)
  /\ (forall t, withKey timeValue t (getAllPosts C) = withKey timeValue t C).
Proof.
  intros Hv. split; [apply getAllPosts_perm|].
  split; [now apply getAllPosts_newestFirst|]. split.
  - intros l1 a l2 b l3 fa fb Heq Hfa Hfb He.
    pose proof (getAllPosts_newestFirst C Hv) as Hs.
    unfold newestFirst in Hs. rewrite Heq in Hs.
    apply StronglySorted_before in Hs. unfold keyGe in Hs.
    assert (Hin : forall p, In p (getAllPosts C) -> Date_parse (date p) <> None).
    { intros p Hp. apply (proj1 (In_getAllPosts C p)) in Hp.
      unfold validDates in Hv. rewrite List.Forall_forall in Hv. exact (Hv p Hp). }
    assert (Ha : Date_parse (date a) <> None).
    { apply Hin. rewrite Heq. apply in_or_app. right. now left. }
    assert (Hb : Date_parse (date b) <> None).
    { apply Hin. rewrite Heq. apply in_or_app. right. right.
      apply in_or_app. right. now left. }
    apply (timeValue_calendar a b fa fb Ha Hb Hfa Hfb) in He. lia.
  - intros t. rewrite getAllPosts_byKey by assumption. apply Array_sort_stable.
Qed.

Lemma sample_validDates : validDates sample.
Proof. repeat constructor; discriminate. Qed.

Lemma getAllPosts_sorted_stable_permutation_witness :
  validDates sample
  /\ map id (getAllPosts sample) = ["b"; "d"; "a"; "c"]%string
  /\ Permutation (getAllPosts sample) sample
  /\ newestFirst (getAllPosts sample)
  /\ forall t, withKey timeValue t (getAllPosts sample) = withKey timeValue t sample.
Proof.
  split; [exact sample_validDates|]. split; [reflexivity|].
  destruct (getAllPosts_sorted_stable_permutation sample sample_validDates)
    as (Hperm & Hsorted & _ & Hstable).
  now repeat split.
Defined.

(* ===================================================================== *)
(** ** Lookup by id *)
(* ===================================================================== *)

Lemma getPostById_Some C i p :
  getPostById C i = Some p -> In p C /\ id p = i.
Proof.
  unfold getPostById, Array_find. intros Hf.
  apply find_some in Hf. now rewrite String.eqb_eq in Hf.
Qed.

Lemma getPostById_None C i :
  getPostById C i = None <-> forall p, In p C -> id p <> i.
Proof.
  unfold getPostById, Array_find. split.
  - intros Hf p Hp Heq.
    apply (find_none _ _ Hf) in Hp. rewrite String.eqb_neq in Hp. contradiction.
  - intros Hall. destruct (List.find _ C) as [p|] eqn:Hf; [|reflexivity].
    apply find_some in Hf. rewrite String.eqb_eq in Hf.
    destruct Hf as [Hp Heq]. now apply Hall in Hp.
Qed.

(** C6: in a catalog whose ids are unique, [getPostById C i] returns the one
    record whose id is [i] when there is one, and it returns the absence
    signal [None] (the function is total: nothing is thrown) exactly when no
    record of [C] has id [i]. *)
Theorem getPostById_unique_or_absent (C : list Post) (i : string) :
  List.NoDup (map id C) ->
  (forall p, In p C -> id p = i -> getPostById C i = Some p)
  /\ (forall p, getPostById C i = Some p -> In p C /\ id p = i)
  /\ (getPostById C i = None <-> forall p, In p C -> id p <> i).
Proof.
  intros Hnd. split; [|split; [apply getPostById_Some | apply getPostById_None]].
  induction C as [|x C IH]; intros p Hp Hi; [destruct Hp|].
  unfold getPostById, Array_find in *. simpl in *.
  inversion Hnd as [|? ? Hx Hnd']; subst.
  destruct Hp as [->|Hp].
  - now rewrite String.eqb_refl.
  - destruct (String.eqb_spec (id x) (id p)) as [Heq|_].
    + exfalso. apply Hx. rewrite Heq. now apply in_map.
    + now apply IH.
Qed.

Lemma getPostById_unique_or_absent_witness :
  List.NoDup (map id POSTS)
  /\ getPostById POSTS "probability-theory-ml" = nth_error POSTS 3
  /\ getPostById POSTS "no-such-post" = None.
Proof.
  assert (Hnd : List.NoDup (map id POSTS)).
  { simpl. repeat constructor; simpl; intuition discriminate. }
  split; [exact Hnd|].
  destruct (getPostById_unique_or_absent POSTS "no-such-post" Hnd) as (_ & _ & Hnone).
  destruct (getPostById_unique_or_absent POSTS "probability-theory-ml" Hnd) as (Hsome & _).
  split.
  - apply Hsome; [simpl; tauto | reflexivity].
  - apply Hnone. simpl. intros p Hp. intuition (subst; discriminate).
Defined.

(* ===================================================================== *)
(** ** Filter by tag *)
(* ===================================================================== *)

Lemma tagFilter_spec t p : tagFilter t p = true <-> hasTagIgnoringCase t p.
Proof.
  unfold tagFilter, hasTagIgnoringCase. rewrite Array_some_spec.
  split; intros [tag [Hin He]]; exists tag; split; try assumption.
  - now apply String.eqb_eq.
  - now apply String.eqb_eq.
Qed.

Lemma getPostsByTag_all C : getPostsByTag C "all" = getAllPosts C.
Proof. reflexivity. Qed.

Lemma getPostsByTag_other C t :
  t <> "all"%string -> getPostsByTag C t = Array_filter (tagFilter t) (getAllPosts C).
Proof.
  intros Ht. unfold getPostsByTag.
  destruct (String.eqb_spec t "all"); [contradiction | reflexivity].
Qed.

Lemma Array_filter_perm {A : Type} (f : A -> bool) l l' :
  Permutation l l' -> Permutation (Array_filter f l) (Array_filter f l').
Proof.
  induction 1 as [|x l l' _ IH|x y l|l l' l'' _ IH1 _ IH2]; simpl.
  - constructor.
  - destruct (f x); [now constructor | assumption].
  - destruct (f x), (f y); try reflexivity. apply perm_swap.
  - now transitivity (Array_filter f l').
Qed.

(** C5: [getPostsByTag C "all"] is [getAllPosts C]; and for every tag token
    [t] (anything but the sentinel) on a catalog with well-formed dates,
    [getPostsByTag C t] holds exactly the posts of [C] that have some tag
    equal to [t] up to letter case, each as often as [C] holds it, newest
    first, in the order of the full listing. *)
Theorem getPostsByTag_all_or_matching (C : list Post) (t : string) :
  validDates C ->
  t <> "all"%string ->
  getPostsByTag C "all" = getAllPosts C
  /\ (forall p, In p (getPostsByTag C t) <-> In p C /\ hasTagIgnoringCase t p)
  /\ Permutation (getPostsByTag C t) (List.filter (tagFilter t) C)
  /\ newestFirst (getPostsByTag C t)
  /\ sublist (getPostsByTag C t) (getAllPosts C).
Proof.
  intros Hv Ht. split; [reflexivity|].
  rewrite (getPostsByTag_other C t Ht).
  split; [|split; [|split]].
  - intros p. unfold Array_filter.
    rewrite filter_In, In_getAllPosts, tagFilter_spec. reflexivity.
  - apply Array_filter_perm, getAllPosts_perm.
  - apply Array_filter_sorted. now apply getAllPosts_newestFirst.
  - apply Array_filter_sublist.
Qed.

Lemma getPostsByTag_all_or_matching_witness :
  validDates sample
  /\ "C++"%string <> "all"%string
  /\ map id (getPostsByTag sample "C++") = ["b"; "a"; "c"]%string
  /\ newestFirst (getPostsByTag sample "C++").
Proof.
  assert (Ht : "C++"%string <> "all"%string) by discriminate.
  split; [exact sample_validDates|]. split; [exact Ht|]. split; [reflexivity|].
  exact (proj1 (proj2 (proj2 (proj2
    (getPostsByTag_all_or_matching sample "C++" sample_validDates Ht))))).
Defined.

(** C9: only the string [all] itself is the sentinel.  For every other
    argument [t], so also for [All] and [ALL], [getPostsByTag C t] is the
    full listing restricted to the posts that have a tag equal to [t] up to
    letter case; and [getPostsByTag C "all"] is the entire catalog, whether
    or not posts of [C] carry a tag [all]. *)
Theorem getPostsByTag_sentinel_is_exactly_all (C : list Post) (t : string) :
  t <> "all"%string ->
  getPostsByTag C t = List.filter (tagFilter t) (getAllPosts C)
  /\ (forall p, In p (getPostsByTag C t) <-> In p (getAllPosts C) /\ hasTagIgnoringCase t p)
  /\ getPostsByTag C "All" = List.filter (tagFilter "all") (getAllPosts C)
  /\ getPostsByTag C "ALL" = List.filter (tagFilter "all") (getAllPosts C)
  /\ Permutation (getPostsByTag C "all") C
  /\ length (getPostsByTag C "all") = length C.
Proof.
  intros Ht. rewrite (getPostsByTag_other C t Ht).
  split; [reflexivity|]. split; [|split; [reflexivity|split; [reflexivity|split]]].
  - intros p. unfold Array_filter. rewrite filter_In, tagFilter_spec. reflexivity.
  - apply getAllPosts_perm.
  - apply Permutation_length, getAllPosts_perm.
Qed.

Lemma getPostsByTag_sentinel_is_exactly_all_witness :
  "All"%string <> "all"%string
  /\ map id (getPostsByTag sample "All") = ["a"]%string
  /\ map id (getPostsByTag sample "ALL") = ["a"]%string
  /\ map id (getPostsByTag sample "all") = ["b"; "d"; "a"; "c"]%string
  /\ Permutation (getPostsByTag sample "all") sample.
Proof.
  assert (Ht : "All"%string <> "all"%string) by discriminate.
  split; [exact Ht|]. repeat (split; [reflexivity|]).
  exact (proj1 (proj2 (proj2 (proj2 (proj2
    (getPostsByTag_sentinel_is_exactly_all sample "All" Ht)))))).
Defined.

(* ===================================================================== *)
(** ** Search *)
(* ===================================================================== *)

Lemma queryFilter_spec q p : queryFilter q p = true <-> matchesQuery q p.
Proof.
  unfold queryFilter, matchesQuery.
  rewrite !orb_true_iff, !includes_spec, Array_some_spec.
  split.
  - intros [[H|H]|[tag [Hin H]]]; [now left | right; now left |].
    right; right. exists tag. split; [assumption | now apply includes_spec].
  - intros [H|[H|[tag [Hin H]]]]; [left; now left | left; now right |].
    right. exists tag. split; [assumption | now apply includes_spec].
Qed.

Lemma searchPosts_filter C q :
  searchPosts C q = Array_filter (queryFilter q) (getAllPosts C).
Proof. reflexivity. Qed.

Lemma Array_filter_true {A : Type} (f : A -> bool) l :
  (forall x, f x = true) -> Array_filter f l = l.
Proof.
  intros Hf. induction l as [|x l IH]; simpl; [reflexivity|].
  now rewrite Hf, IH.
Qed.

Lemma searchPosts_empty C : searchPosts C "" = getAllPosts C.
Proof.
  rewrite searchPosts_filter. apply Array_filter_true.
  intros p. unfold queryFilter. simpl. now rewrite includes_empty.
Qed.

Lemma displayPosts_filteredPosts st :
  Blog.filteredPosts (Blog.displayPosts st) = Blog.filteredPosts st.
Proof. unfold Blog.displayPosts. now destruct (Blog.container st). Qed.

Lemma displayPosts_currentTag st :
  Blog.currentTag (Blog.displayPosts st) = Blog.currentTag st.
Proof. unfold Blog.displayPosts. now destruct (Blog.container st). Qed.

(** C3, as the claim has it, fails on the catalog of the blog: the query of
    two blanks is whitespace only, yet [searchPosts] answers it with no post
    at all; and with the tag [C++] selected, the empty query typed into the
    search box leaves the two posts of that tag, not the full listing. *)
Lemma search_blank_query_counterexample :
  trim "  " = ""%string
  /\ searchPosts POSTS "  " = []
  /\ searchPosts POSTS "  " <> getPostsByTag POSTS "all"
  /\ (let st := Blog.filterByTag POSTS "C++" (Blog.initial (Some ""%string) (Some Blog.Loading)) in
      map id (Blog.filteredPosts (Blog.handleSearch POSTS "" st))
        = ["understanding-move-semantics-cpp"; "modern-cpp-best-practices"]%string
      /\ Blog.filteredPosts (Blog.handleSearch POSTS "" st) <> getAllPosts POSTS).
Proof.
  split; [reflexivity|]. split; [reflexivity|]. split; [discriminate|].
  split; [reflexivity | discriminate].
Qed.

(** C3, amended: [searchPosts C ""] is the unfiltered listing
    [getAllPosts C], which is [getPostsByTag C "all"]; for every query [q],
    [searchPosts C q] holds exactly the posts of [C] for which the lowercased
    [q] occurs in the lowercased title, the lowercased summary or some
    lowercased tag, newest first in the order of the listing; and the search
    box of the page answers a query that is empty or whitespace only with
    the posts of the tag currently selected, and any other query with
    [searchPosts C q]. *)
Theorem searchPosts_matching_or_current_tag (C : list Post) (q : string) (st : Blog.State) :
  validDates C ->
  searchPosts C "" = getAllPosts C
  /\ getAllPosts C = getPostsByTag C "all"
  /\ (forall p, In p (searchPosts C q) <-> In p C /\ matchesQuery q p)
  /\ Permutation (searchPosts C q) (List.filter (queryFilter q) C)
  /\ newestFirst (searchPosts C q)
  /\ sublist (searchPosts C q) (getAllPosts C)
  /\ (trim q = ""%string ->
      Blog.filteredPosts (Blog.handleSearch C q st) = getPostsByTag C (Blog.currentTag st))
  /\ (trim q <> ""%string ->
      Blog.filteredPosts (Blog.handleSearch C q st) = searchPosts C q).
Proof.
  intros Hv.
  split; [apply searchPosts_empty|]. split; [reflexivity|].
  rewrite searchPosts_filter.
  split; [|split; [|split; [|split; [|split]]]].
  - intros p. unfold Array_filter.
    rewrite filter_In, In_getAllPosts, queryFilter_spec. reflexivity.
  - apply Array_filter_perm, getAllPosts_perm.
  - apply Array_filter_sorted. now apply getAllPosts_newestFirst.
  - apply Array_filter_sublist.
  - intros Hq. unfold Blog.handleSearch. rewrite Hq. simpl.
    unfold Blog.filterByTag, Blog.loadPosts. now rewrite displayPosts_filteredPosts.
  - intros Hq. unfold Blog.handleSearch.
    destruct (String.eqb_spec (trim q) ""); [contradiction|].
    now rewrite displayPosts_filteredPosts.
Qed.

Lemma searchPosts_matching_or_current_tag_witness :
  validDates sample
  /\ map id (searchPosts sample "RUST") = ["d"; "c"]%string
  /\ newestFirst (searchPosts sample "RUST")
  /\ Blog.filteredPosts
       (Blog.handleSearch sample "RUST" (Blog.initial (Some "RUST"%string) (Some Blog.Loading)))
     = searchPosts sample "RUST".
Proof.
  split; [exact sample_validDates|]. split; [reflexivity|].
  pose proof (searchPosts_matching_or_current_tag sample "RUST"
                (Blog.initial (Some "RUST"%string) (Some Blog.Loading)) sample_validDates)
    as (_ & _ & _ & _ & Hsorted & _ & _ & Hbox).
  split; [exact Hsorted|]. apply Hbox. discriminate.
Defined.

(* ===================================================================== *)
(** ** Pages of the listing *)
(* ===================================================================== *)

Lemma nth_error_firstn {A : Type} (l : list A) n i :
  nth_error (firstn n l) i = if (i <? n)%nat then nth_error l i else None.
Proof.
  revert l i. induction n as [|n IH]; intros l i.
  - simpl. now destruct i.
  - destruct l as [|x l]; [simpl; destruct i; now destruct (_ <? _)%nat|].
    destruct i as [|i]; [reflexivity|]. simpl. rewrite IH. reflexivity.
Qed.

Lemma nth_error_skipn {A : Type} (l : list A) k i :
  nth_error (skipn k l) i = nth_error l (k + i).
Proof.
  revert l. induction k as [|k IH]; intros l; [reflexivity|].
  destruct l as [|x l]; [now destruct i|]. simpl. apply IH.
Qed.

Lemma postsToShow_nth_error {A : Type} (l : list A) (p : Z) (i : nat) :
  1 <= p ->
  nth_error (Blog.postsToShow l p) i =
    if (i <? 9)%nat then nth_error l (Z.to_nat ((p - 1) * 9) + i) else None.
Proof.
  intros Hp. unfold Blog.postsToShow, Blog.postsPerPage, Array_slice, relativeIndex.
  set (s := (p - 1) * 9). set (len := Z.of_nat (length l)).
  assert (Hs : 0 <= s) by (unfold s; lia).
  destruct (Z.ltb_spec s 0) as [|_]; [lia|].
  destruct (Z.ltb_spec (s + 9) 0) as [|_]; [lia|].
  rewrite nth_error_firstn, nth_error_skipn.
  destruct (Nat.ltb_spec i 9) as [Hi|Hi].
  - destruct (Nat.ltb_spec i (Z.to_nat (Z.min (s + 9) len - Z.min s len))) as [Hn|Hn].
    + f_equal. lia.
    + symmetry. apply nth_error_None. unfold len in *. lia.
  - destruct (Nat.ltb_spec i (Z.to_nat (Z.min (s + 9) len - Z.min s len))) as [Hn|Hn];
      [lia | reflexivity].
Qed.

(** C7: whatever the sequence [filteredPosts] and the 1-based page number
    [currentPage], the page that [displayPosts] shows is the slice of the
    sequence at the indices [(p-1)*9] to [p*9-1] (as far as they exist); and
    page 2 of a sequence of 20 items is made of the items at the 0-based
    positions 9 to 17. *)
Theorem displayPosts_shows_page_slice (st : Blog.State) (box : Blog.Container) :
  1 <= Blog.currentPage st ->
  Blog.container st = Some box ->
  let p := Blog.currentPage st in
  let shown := Blog.postsToShow (Blog.filteredPosts st) p in
  Blog.container (Blog.displayPosts st)
    = Some (match shown with [] => Blog.NoPostsFound | _ => Blog.Cards shown end)
  /\ (forall i : nat,
        nth_error shown i =
          if (i <? 9)%nat
          then nth_error (Blog.filteredPosts st) (Z.to_nat ((p - 1) * 9) + i)
          else None)
  /\ (p = 2 -> length (Blog.filteredPosts st) = 20%nat ->
      forall d, shown = map (fun i => nth i (Blog.filteredPosts st) d) (seq 9 9)).
Proof.
  intros Hp Hbox p shown. split; [|split].
  - unfold Blog.displayPosts. rewrite Hbox. reflexivity.
  - intros i. now apply postsToShow_nth_error.
  - intros H2 Hlen d. subst shown. rewrite H2.
    destruct (Blog.filteredPosts st) as [|x0 l]; [discriminate|].
    do 19 (destruct l as [|? l]; [discriminate|]).
    destruct l; [reflexivity | discriminate].
Qed.

Lemma displayPosts_shows_page_slice_witness :
  let st := Blog.mkState "all" 2 twenty None (Some Blog.Loading) in
  1 <= Blog.currentPage st
  /\ Blog.container st = Some Blog.Loading
  /\ map id (Blog.postsToShow (Blog.filteredPosts st) 2)
     = ["J"; "K"; "L"; "M"; "N"; "O"; "P"; "Q"; "R"]%string
  /\ forall d, Blog.postsToShow twenty 2 = map (fun i => nth i twenty d) (seq 9 9).
Proof.
  intros st.
  assert (Hp : 1 <= Blog.currentPage st) by (simpl; lia).
  split; [exact Hp|]. split; [reflexivity|]. split; [reflexivity|].
  destruct (displayPosts_shows_page_slice st Blog.Loading Hp eq_refl) as (_ & _ & H20).
  apply H20; reflexivity.
Defined.

(* ===================================================================== *)
(** ** The score of a candidate *)
(* ===================================================================== *)




Lemma matchingTags_zero source p :
  matchingTags source p = 0 <-> forall t, In t (tags p) -> ~ In t (tags source).
Proof.
  unfold matchingTags. generalize (tags p) as l.
  induction l as [|t l IH]; [simpl; tauto|].
  simpl. destruct (Array_includes (tags source) t) eqn:Hi.
  - split; [simpl; lia|]. intros Hall. exfalso.
    apply (Hall t); [now left | now apply Array_includes_spec].
  - rewrite IH. split.
    + intros Hall t' [<-|Ht'] Hin; [|now apply (Hall t')].
      apply Array_includes_spec in Hin. congruence.
    + intros Hall t' Ht'. apply Hall. now right.
Qed.

Lemma matchingTags_pos source p :
  0 < matchingTags source p <-> sharesTag source p.
Proof.
  unfold sharesTag. split.
  - intros Hpos. unfold matchingTags in Hpos.
    destruct (Array_filter _ (tags p)) as [|t l] eqn:Hf; [simpl in Hpos; lia|].
    assert (Hin : In t (Array_filter (fun tag => Array_includes (tags source) tag) (tags p)))
      by (rewrite Hf; now left).
    apply filter_In in Hin. destruct Hin as [Hin Hinc].
    exists t. split; [assumption | now apply Array_includes_spec].
  - intros [t [Hp Hs]].
    assert (Hne : matchingTags source p <> 0).
    { rewrite matchingTags_zero. intros Hall. now apply (Hall t). }
    unfold matchingTags in *. lia.
Qed.


(** The tag [c++] of post [b] selects it under the tag [C++], but adds
    nothing to its score against post [a], tagged [C++]; the tag [C++] held
    twice by post [c] counts twice. *)
Example matchingTags_case_and_repetition :
  let a := examplePost "a" "2026-01-01" ["C++"; "all"]%string in
  let b := examplePost "b" "2026-03-01" ["c++"]%string in
  let c := examplePost "c" "2026-01-01" ["Rust"; "C++"; "C++"]%string in
  tagFilter "C++" b = true /\ matchingTags a b = 0 /\ matchingTags a c = 2.
Proof. repeat split. Qed.


(* ===================================================================== *)
(** ** Related posts *)
(* ===================================================================== *)

Lemma Array_slice_0 {A : Type} (l : list A) k :
  0 <= k -> Array_slice l 0 k = firstn (Z.to_nat k) l.
Proof.
  intros Hk. unfold Array_slice, relativeIndex. change (0 <? 0) with false.
  destruct (Z.ltb_spec k 0) as [|_]; [lia|]. cbv iota.
  replace (Z.to_nat (Z.min 0 (Z.of_nat (length l)))) with 0%nat by lia.
  cbn [skipn].
  destruct (Z.le_ge_cases k (Z.of_nat (length l))) as [Hle|Hge].
  - f_equal. lia.
  - rewrite (firstn_all2 (n := Z.to_nat k)) by lia.
    apply firstn_all2. lia.
Qed.

Lemma StronglySorted_firstn {A : Type} (R : A -> A -> Prop) n l :
  StronglySorted R l -> StronglySorted R (firstn n l).
Proof.
  intros Hs. revert n. induction Hs as [|x l Hl IH Hx]; intros [|n]; simpl;
    try constructor; [apply IH|].
  rewrite List.Forall_forall in *. intros y Hy. apply Hx.
  rewrite <- (firstn_skipn n l). apply in_or_app. now left.
Qed.

Lemma In_firstn {A : Type} (x : A) n l : In x (firstn n l) -> In x l.
Proof.
  intros Hx. rewrite <- (firstn_skipn n l). apply in_or_app. now left.
Qed.

Lemma filter_firstn_prefix {A : Type} (f : A -> bool) n l :
  exists rest, List.filter f l = List.filter f (firstn n l) ++ rest.
Proof.
  exists (List.filter f (skipn n l)).
  now rewrite <- List.filter_app, firstn_skipn.
Qed.

Lemma getRelatedPosts_known C i k source :
  0 <= k -> getPostById C i = Some source ->
  getRelatedPosts C i k
    = firstn (Z.to_nat k) (Array_sort (byKeyDesc score) (candidates C i source)).
Proof.
  intros Hk Hs. unfold getRelatedPosts. rewrite Hs.
  now rewrite Array_slice_0.
Qed.

Lemma getRelatedPosts_unknown C i k :
  (forall p, In p C -> id p <> i) -> getRelatedPosts C i k = [].
Proof.
  intros Hall. apply getPostById_None in Hall.
  unfold getRelatedPosts. now rewrite Hall.
Qed.

Lemma In_candidates C i source r :
  In r (candidates C i source) <->
  In (post r) C /\ id (post r) <> i
  /\ score r = matchingTags source (post r) /\ 0 < score r.
Proof.
  unfold candidates, Array_filter.
  rewrite filter_In, in_map_iff, Z.ltb_lt. split.
  - intros [[p [<- Hp]] Hpos]. apply filter_In in Hp. destruct Hp as [Hp Hid].
    apply negb_true_iff, String.eqb_neq in Hid. simpl in *. tauto.
  - intros (Hp & Hid & Hsc & Hpos). split; [|assumption].
    exists (post r). split; [destruct r; simpl in *; now subst|].
    apply filter_In. split; [assumption|].
    now apply negb_true_iff, String.eqb_neq.
Qed.

Lemma candidates_withKey C i source s :
  map post (withKey score s (candidates C i source))
    = if 0 <? s then othersOfScore C i source s else [].
Proof.
  unfold candidates, othersOfScore, withKey, Array_filter.
  induction C as [|p C IH]; simpl; [now destruct (0 <? s)|].
  destruct (negb (String.eqb (id p) i)); simpl; [|exact IH].
  destruct (Z.ltb_spec 0 (matchingTags source p)) as [Hpos|Hle];
    destruct (Z.eqb_spec (matchingTags source p) s) as [Heq|Hne];
    destruct (Z.ltb_spec 0 s) as [Hs|Hs];
    simpl; try lia; try exact IH.
  - rewrite Heq, Z.eqb_refl. simpl. f_equal.
    destruct (Z.ltb_spec 0 s); [exact IH | lia].
  - destruct (Z.eqb_spec (matchingTags source p) s); [lia|].
    destruct (Z.ltb_spec 0 s); [exact IH | lia].
  - destruct (Z.eqb_spec (matchingTags source p) s); [lia|].
    destruct (Z.ltb_spec 0 s); [lia | exact IH].
Qed.

Lemma candidates_byDate C i source :
  newestFirst C ->
  StronglySorted (fun a b => timeValue (post b) <= timeValue (post a))
                 (candidates C i source).
Proof.
  intros Hs. unfold candidates. apply Array_filter_sorted.
  apply (Array_filter_sorted _ (fun p => negb (String.eqb (id p) i))) in Hs.
  induction Hs as [|p l Hl IH Hp]; simpl; constructor; [assumption|].
  rewrite List.Forall_forall in *. intros r Hr.
  apply in_map_iff in Hr. destruct Hr as [q [<- Hq]]. simpl. exact (Hp q Hq).
Qed.

Lemma sort_insert_scoreThenDate x l :
  StronglySorted scoreThenDate l ->
  Forall (fun y => timeValue (post y) <= timeValue (post x)) l ->
  StronglySorted scoreThenDate (sort_insert (byKeyDesc score) x l).
Proof.
  induction 1 as [|y l Hl IH Hy]; intros Hx; simpl.
  - repeat constructor.
  - inversion Hx as [|? ? Hxy Hxl]; subst.
    assert (Hyl : StronglySorted scoreThenDate (y :: l)) by now constructor.
    specialize (IH Hxl).
    rewrite List.Forall_forall in Hy, Hxl.
    unfold byKeyDesc at 1. destruct (Z.leb_spec (score y - score x) 0) as [Hle|Hgt].
    + constructor; [exact Hyl|].
      rewrite List.Forall_forall. intros z [<-|Hz].
      * unfold scoreThenDate. lia.
      * specialize (Hy z Hz). specialize (Hxl z Hz). unfold scoreThenDate in *. lia.
    + constructor; [exact IH|].
      rewrite List.Forall_forall. intros z Hz.
      apply (Permutation_in _ (sort_insert_perm _ x l)) in Hz.
      destruct Hz as [<-|Hz]; [unfold scoreThenDate; lia | now apply Hy].
Qed.

Lemma Array_sort_scoreThenDate l :
  StronglySorted (fun a b => timeValue (post b) <= timeValue (post a)) l ->
  StronglySorted scoreThenDate (Array_sort (byKeyDesc score) l).
Proof.
  induction 1 as [|x l Hl IH Hx]; simpl; [constructor|].
  apply sort_insert_scoreThenDate; [assumption|].
  rewrite List.Forall_forall in *. intros y Hy. apply Hx.
  now apply In_Array_sort in Hy.
Qed.

(** C1, as the claim has it, fails on the catalog [sample]: against post
    [c], the posts [a] and [d] both score 1, and [a], of 1 January, is ranked
    above [d], of 1 February, because it stands first in the catalog; and
    with the limit -1 the function still returns a post. *)
Lemma getRelatedPosts_ties_counterexample :
  map (fun r => (id (post r), score r, date (post r))) (getRelatedPosts sample "c" 3)
    = [("a", 1, "2026-01-01"); ("d", 1, "2026-02-01")]%string
  /\ ~ StronglySorted scoreThenDate (getRelatedPosts sample "c" 3)
  /\ map (fun r => id (post r)) (getRelatedPosts sample "c" (-1)) = ["a"%string].
Proof.
  split; [reflexivity|]. split; [|reflexivity].
  intros Hs. remember (getRelatedPosts sample "c" 3) as R eqn:HR.
  vm_compute in HR. subst R.
  inversion Hs as [|? ? _ Hr]; subst.
  inversion Hr as [|? ? Hrd _]; subst.
  vm_compute in Hrd. destruct Hrd as [Hlt|[_ Hle]].
  - discriminate Hlt.
  - now apply Hle.
Qed.

(** C1, amended: for every catalog [C], id [i] and limit [k >= 0],
    [getRelatedPosts C i k] holds no post of id [i] and only posts of [C];
    when a post [source] of id [i] is found, every result carries its score
    against [source], which is above 0, so it shares a tag with [source];
    there are at most [k] results; they are sorted by score, highest first;
    posts of equal score stand in the order of the catalog, so that they
    stand newest first whenever the catalog itself is listed newest first;
    and when no post of [C] has id [i] the result is empty. *)
Theorem getRelatedPosts_ranked_by_score (C : list Post) (i : string) (k : Z) :
  0 <= k ->
  let R := getRelatedPosts C i k in
  (forall r, In r R -> id (post r) <> i /\ In (post r) C)
  /\ (forall source r, getPostById C i = Some source -> In r R ->
        score r = matchingTags source (post r) /\ 0 < score r
        /\ sharesTag source (post r))
  /\ (length R <= Z.to_nat k)%nat
  /\ StronglySorted (keyGe score) R
  /\ (forall source s, getPostById C i = Some source ->
        prefix (map post (withKey score s R)) (othersOfScore C i source s))
  /\ (newestFirst C -> StronglySorted scoreThenDate R)
  /\ ((forall p, In p C -> id p <> i) -> R = []).
Proof.
  intros Hk R. subst R.
  destruct (getPostById C i) as [source|] eqn:Hfound.
  - rewrite (getRelatedPosts_known C i k source Hk Hfound).
    set (ranking := Array_sort (byKeyDesc score) (candidates C i source)).
    assert (Hin : forall r, In r (firstn (Z.to_nat k) ranking) ->
                            In r (candidates C i source)).
    { intros r Hr. apply In_firstn in Hr. now apply In_Array_sort in Hr. }
    split; [|split; [|split; [|split; [|split; [|split]]]]].
    + intros r Hr. apply Hin, In_candidates in Hr. tauto.
    + intros source' r Hs Hr. injection Hs as <-.
      apply Hin, In_candidates in Hr. destruct Hr as (_ & _ & Hsc & Hpos).
      split; [assumption|]. split; [assumption|].
      apply matchingTags_pos. now rewrite <- Hsc.
    + apply firstn_le_length.
    + apply StronglySorted_firstn, Array_sort_sorted.
    + intros source' s Hs. injection Hs as <-.
      destruct (filter_firstn_prefix (fun a => score a =? s) (Z.to_nat k) ranking)
        as [rest Hrest].
      pose proof (candidates_withKey C i source s) as Hc.
      rewrite <- (Array_sort_stable score s (candidates C i source)) in Hc.
      fold ranking in Hc. unfold withKey in *. rewrite Hrest, map_app in Hc.
      destruct (0 <? s).
      * exists (map post rest). now rewrite <- Hc.
      * apply app_eq_nil in Hc. destruct Hc as [-> _]. apply prefix_nil.
    + intros Hn. apply StronglySorted_firstn, Array_sort_scoreThenDate.
      now apply candidates_byDate.
    + intros Hall. apply getPostById_None in Hall. congruence.
  - assert (He : getRelatedPosts C i k = [])
      by (unfold getRelatedPosts; now rewrite Hfound).
    rewrite He. cbn [withKey List.filter map length].
    split; [intros r []|]. split; [intros ? r _ []|]. split; [lia|].
    split; [constructor|]. split; [discriminate|].
    split; [constructor | reflexivity].
Qed.

Lemma getRelatedPosts_ranked_by_score_witness :
  0 <= 1
  /\ map (fun r => (id (post r), score r)) (getRelatedPosts sample "a" 1) = [("c", 2)]%string
  /\ (length (getRelatedPosts sample "a" 1) <= 1)%nat
  /\ getRelatedPosts sample "z" 1 = [].
Proof.
  assert (Hk : 0 <= 1) by lia.
  split; [exact Hk|]. split; [reflexivity|].
  destruct (getRelatedPosts_ranked_by_score sample "a" 1 Hk) as (_ & _ & Hlen & _).
  split; [exact Hlen|].
  destruct (getRelatedPosts_ranked_by_score sample "z" 1 Hk) as (_ & _ & _ & _ & _ & _ & Hz).
  apply Hz. simpl. intros p Hp. intuition (subst; discriminate).
Defined.

(* ===================================================================== *)
(** ** The theme switch *)
(* ===================================================================== *)

Lemma getTheme_truthy st : Theme.truthy (Some (Theme.getTheme st)) = true.
Proof.
  unfold Theme.getTheme.
  destruct (Theme.storedTheme st) as [saved|].
  - destruct (Theme.truthy (Some saved)) eqn:Hs; [exact Hs|].
    now destruct (Theme.prefersDark st).
  - now destruct (Theme.prefersDark st).
Qed.

(** Whatever applies a theme also persists it. *)
Lemma step_persists st e :
  Theme.truthy (Theme.storedTheme st) = true ->
  Theme.truthy (Theme.storedTheme (Theme.step st e)) = true.
Proof.
  intros Hp. destruct e as [| |m]; simpl.
  - apply getTheme_truthy.
  - destruct (Theme.toggleBound st); [|exact Hp]. simpl.
    destruct (Theme.dataTheme st) as [cur|]; [|reflexivity].
    now destruct (String.eqb cur "dark").
  - rewrite Hp. simpl. exact Hp.
Qed.

Lemma load_persists st :
  Theme.truthy (Theme.storedTheme (Theme.step st Theme.DOMContentLoaded)) = true.
Proof. simpl. apply getTheme_truthy. Qed.

(** With a theme persisted, a change of the system's preference is noted
    and nothing else happens. *)
Lemma change_ignored_when_persisted st m :
  Theme.truthy (Theme.storedTheme st) = true ->
  Theme.step st (Theme.ColorSchemeChange m)
    = Theme.mkState (Theme.storedTheme st) (Theme.dataTheme st) (Theme.themeIcon st)
                    m (Theme.toggleBound st).
Proof. intros Hp. simpl. now rewrite Hp. Qed.

Lemma changes_ignored_when_persisted st (changes : list bool) :
  Theme.truthy (Theme.storedTheme st) = true ->
  Theme.dataTheme (Theme.run st (map Theme.ColorSchemeChange changes)) = Theme.dataTheme st.
Proof.
  revert st. induction changes as [|m changes IH]; intros st Hp; [reflexivity|].
  unfold Theme.run in *. cbn [map fold_left].
  rewrite IH by now apply step_persists.
  now rewrite change_ignored_when_persisted.
Qed.

(** The part of C2 that holds: once the toggle has been pressed, changes of
    the system's preference never alter the applied theme. *)
Lemma toggle_then_changes_ignored st (changes : list bool) :
  Theme.toggleBound st = true ->
  Theme.dataTheme
    (Theme.run (Theme.step st Theme.ToggleClick) (map Theme.ColorSchemeChange changes))
  = Theme.dataTheme (Theme.step st Theme.ToggleClick).
Proof.
  intros Hb. apply changes_ignored_when_persisted.
  simpl. rewrite Hb. simpl.
  destruct (Theme.dataTheme st) as [cur|]; [|reflexivity].
  now destruct (String.eqb cur "dark").
Qed.

(** Before anything is persisted, a change of the system's preference is
    followed. *)
Lemma first_change_followed dark icon m :
  Theme.dataTheme (Theme.step (Theme.fresh dark icon) (Theme.ColorSchemeChange m))
    = Some (if m then "dark" else "light")%string.
Proof. reflexivity. Qed.

(** C2 on the code: a page opened with nothing persisted, on a system that
    prefers light, applies [light] when it has loaded and persists it on the
    spot; when the system then turns to dark, the toggle never pressed, the
    applied theme stays [light].  In general the theme applied at load stays
    through every later change of the system's preference; and even before
    the page has loaded only the first change is followed. *)
Theorem theme_load_persists_and_stops_following (icon : option Theme.Icon) :
  (let st := Theme.run (Theme.fresh false icon)
                       [Theme.DOMContentLoaded; Theme.ColorSchemeChange true] in
   Theme.prefersDark st = true
   /\ Theme.storedTheme st = Some "light"%string
   /\ Theme.dataTheme st = Some "light"%string)
  /\ (forall dark changes,
        Theme.dataTheme
          (Theme.run (Theme.fresh dark icon)
                     (Theme.DOMContentLoaded :: map Theme.ColorSchemeChange changes))
        = Some (if dark then "dark" else "light")%string)
  /\ (let st := Theme.run (Theme.fresh false icon)
                          [Theme.ColorSchemeChange true; Theme.ColorSchemeChange false] in
      Theme.prefersDark st = false /\ Theme.dataTheme st = Some "dark"%string).
Proof.
  split; [repeat split|]. split; [|repeat split].
  intros dark changes. unfold Theme.run. cbn [fold_left].
  fold (Theme.run (Theme.step (Theme.fresh dark icon) Theme.DOMContentLoaded)
                  (map Theme.ColorSchemeChange changes)).
  rewrite changes_ignored_when_persisted by apply load_persists.
  now destruct dark.
Qed.


(* ===================================================================== *)
(** ** The queries leave the catalog alone *)
(* ===================================================================== *)

Section StoreFacts.
Import Store.

Lemma bind_run {R S : Type} (c : M R) (k : R -> M S) h x h' :
  c h = (x, h') -> (c ≫= k) h = k x h'.
Proof. intros Hc. unfold mbind, M_bind. now rewrite Hc. Qed.

Lemma fmap_run {R S : Type} (f : R -> S) (c : M R) h x h' :
  c h = (x, h') -> (f <$> c) h = (f x, h').
Proof. intros Hc. unfold fmap, M_fmap. now rewrite Hc. Qed.

(** [h0] is the store before a call: a store [h] that contains it has all
    its arrays, unchanged, and possibly new ones. *)

Lemma read_run {A : Type} {EA : Elem A} (r : nat) (l : list A) (h : gmap nat Arr) :
  h !! r = Some (toArr l) -> read r h = (l, h).
Proof. intros Hr. unfold read. rewrite Hr. simpl. now rewrite ofArr_toArr. Qed.

Lemma alloc_run {A : Type} {EA : Elem A} (l : list A) (h0 h : gmap nat Arr) :
  h0 ⊆ h ->
  exists r h', alloc l h = (r, h') /\ h0 ⊆ h' /\ h0 !! r = None
               /\ h' !! r = Some (toArr l).
Proof.
  intros Hsub. exists (fresh (dom h)), (<[fresh (dom h) := toArr l]> h).
  assert (Hfresh : h !! fresh (dom h) = None)
    by (apply not_elem_of_dom, is_fresh).
  split; [reflexivity|]. split; [|split].
  - etransitivity; [exact Hsub|]. now apply insert_subseteq.
  - destruct (h0 !! fresh (dom h)) as [a|] eqn:Ha; [|reflexivity].
    rewrite (lookup_weaken _ _ _ _ Ha Hsub) in Hfresh. discriminate.
  - apply lookup_insert_eq.
Qed.

Lemma sort_run {A : Type} {EA : Elem A} (comparefn : A -> A -> Z) (r : nat) (l : list A)
      (h0 h : gmap nat Arr) :
  h0 ⊆ h -> h0 !! r = None -> h !! r = Some (toArr l) ->
  exists h', sort comparefn r h = (r, h') /\ h0 ⊆ h'
             /\ h' !! r = Some (toArr (Array_sort comparefn l)).
Proof.
  intros Hsub Hnew Hr. exists (<[r := toArr (Array_sort comparefn l)]> h).
  split; [|split].
  - unfold sort. rewrite (bind_run _ _ _ _ _ (read_run r l h Hr)). reflexivity.
  - apply map_subseteq_spec. intros r' a Ha.
    rewrite lookup_insert_ne by congruence.
    exact (lookup_weaken _ _ _ _ Ha Hsub).
  - apply lookup_insert_eq.
Qed.

Lemma derive_run {A B : Type} {EA : Elem A} {EB : Elem B} (f : list A -> list B) (r : nat)
      (l : list A) (h0 h : gmap nat Arr) :
  h0 ⊆ h -> h !! r = Some (toArr l) ->
  exists r' h', (read r ≫= fun l => alloc (f l)) h = (r', h') /\ h0 ⊆ h'
                 /\ h0 !! r' = None /\ h' !! r' = Some (toArr (f l)).
Proof.
  intros Hsub Hr. destruct (alloc_run (f l) h0 h Hsub) as (r' & h' & Ha & Hrest).
  exists r', h'. split; [|exact Hrest].
  now rewrite (bind_run _ _ _ _ _ (read_run r l h Hr)).
Qed.

Variable POSTS : nat.
Variable C : list Post.
Variable h0 : gmap nat Arr.
Hypothesis POSTS_holds : h0 !! POSTS = Some (PostArr C).

Lemma getAllPosts_run h :
  h0 ⊆ h -> returnsNew h0 (getAllPosts POSTS) h (PostArr (Posts.getAllPosts C)).
Proof using POSTS_holds.
  intros Hsub. unfold getAllPosts, spread.
  destruct (derive_run (EA:=Elem_Post) (EB:=Elem_Post) (fun l : list Post => l) POSTS C h0 h Hsub
              (lookup_weaken _ _ _ _ POSTS_holds Hsub))
    as (copy & h1 & Hcopy & Hsub1 & Hnew & Hat).
  destruct (sort_run (EA:=Elem_Post) compareByDate copy C h0 h1 Hsub1 Hnew Hat)
    as (h2 & Hsort & Hsub2 & Hat2).
  exists copy, h2. split; [|now repeat split].
  now rewrite (bind_run _ _ _ _ _ Hcopy).
Qed.

Lemma after_getAllPosts_run (f : list Post -> list Post) h :
  h0 ⊆ h ->
  returnsNew h0 (getAllPosts POSTS ≫= fun all => read all ≫= fun l => alloc (f l)) h
             (PostArr (f (Posts.getAllPosts C))).
Proof using POSTS_holds.
  intros Hsub.
  destruct (getAllPosts_run h Hsub) as (all & h1 & Hall & Hsub1 & _ & Hat).
  destruct (derive_run (EA:=Elem_Post) (EB:=Elem_Post) f all (Posts.getAllPosts C) h0 h1 Hsub1 Hat)
    as (r & h2 & Hr & Hrest).
  exists r, h2. split; [|exact Hrest].
  now rewrite (bind_run _ _ _ _ _ Hall).
Qed.

Lemma getAllTags_run h :
  h0 ⊆ h -> returnsNew h0 (getAllTags POSTS) h (StringArr (Posts.getAllTags C)).
Proof using POSTS_holds.
  intros Hsub. unfold getAllTags.
  destruct (derive_run (EA:=Elem_Post) (EB:=Elem_string) (fun posts : list Post => Set_from (flat_map tags posts))
              POSTS C h0 h Hsub (lookup_weaken _ _ _ _ POSTS_holds Hsub))
    as (arr & h1 & Harr & Hsub1 & Hnew & Hat).
  destruct (sort_run (EA:=Elem_string) compareStrings arr _ h0 h1 Hsub1 Hnew Hat)
    as (h2 & Hsort & Hsub2 & Hat2).
  exists arr, h2. split; [|now repeat split].
  unfold mbind, M_bind in *. destruct (read POSTS h) as [posts h'] eqn:Hread.
  now rewrite Harr.
Qed.

Lemma getPostById_run postId h :
  h0 ⊆ h -> getPostById POSTS postId h = (Posts.getPostById C postId, h).
Proof using POSTS_holds.
  intros Hsub. unfold getPostById, find_.
  now rewrite (bind_run _ _ _ _ _
                 (read_run (EA:=Elem_Post) POSTS C h (lookup_weaken _ _ _ _ POSTS_holds Hsub))).
Qed.

Lemma getRelatedPosts_run postId limit h :
  h0 ⊆ h ->
  returnsNew h0 (getRelatedPosts POSTS postId limit) h
             (ScoredArr (Posts.getRelatedPosts C postId limit)).
Proof using POSTS_holds.
  intros Hsub. unfold returnsNew, getRelatedPosts, Posts.getRelatedPosts.
  rewrite (bind_run _ _ _ _ _ (getPostById_run postId h Hsub)).
  destruct (Posts.getPostById C postId) as [source|].
  - unfold filter_, map_, slice.
    destruct (derive_run (EA:=Elem_Post) (EB:=Elem_Post) (Array_filter (fun p : Post => negb (String.eqb (id p) postId)))
                POSTS C h0 h Hsub (lookup_weaken _ _ _ _ POSTS_holds Hsub))
      as (r1 & h1 & H1 & Hsub1 & _ & Hat1).
    destruct (derive_run (EA:=Elem_Post) (EB:=Elem_ScoredPost) (map (fun p => mkScored p (matchingTags source p)))
                r1 _ h0 h1 Hsub1 Hat1)
      as (r2 & h2 & H2 & Hsub2 & _ & Hat2).
    destruct (derive_run (EA:=Elem_ScoredPost) (EB:=Elem_ScoredPost) (Array_filter (fun p : ScoredPost => 0 <? score p))
                r2 _ h0 h2 Hsub2 Hat2)
      as (r3 & h3 & H3 & Hsub3 & Hnew3 & Hat3).
    destruct (sort_run (EA:=Elem_ScoredPost) compareByScore r3 _ h0 h3 Hsub3 Hnew3 Hat3)
      as (h4 & H4 & Hsub4 & Hat4).
    destruct (derive_run (EA:=Elem_ScoredPost) (EB:=Elem_ScoredPost) (fun l : list ScoredPost => Array_slice l 0 limit)
                r3 _ h0 h4 Hsub4 Hat4)
      as (r5 & h5 & H5 & Hrest).
    exists r5, h5. split; [|exact Hrest].
    rewrite (bind_run _ _ _ _ _ H1), (bind_run _ _ _ _ _ H2),
      (bind_run _ _ _ _ _ H3), (bind_run _ _ _ _ _ H4).
    exact H5.
  - destruct (alloc_run (A:=ScoredPost) [] h0 h Hsub) as (r & h' & Ha & Hrest).
    exists r, h'. now split.
Qed.

Lemma call_run q h :
  h0 ⊆ h ->
  exists ret h', call POSTS q h = (ret, h') /\ h0 ⊆ h'
                 /\ observe h' ret = Some (answer C q).
Proof using POSTS_holds.
  intros Hsub.
  assert (Hnew : forall c a, returnsNew h0 c h a ->
            exists ret h', (RArray <$> c) h = (ret, h') /\ h0 ⊆ h'
                           /\ observe h' ret = Some (AArray a)).
  { intros c a (r & h' & Hc & Hsub' & _ & Hat).
    exists (RArray r), h'. split; [now apply fmap_run|]. split; [assumption|].
    simpl. now rewrite Hat. }
  destruct q as [|postId|limit|tag| |query|postId limit]; simpl.
  - apply Hnew. now apply getAllPosts_run.
  - exists (RPost (Posts.getPostById C postId)), h.
    split; [apply fmap_run; now apply getPostById_run | now split].
  - apply Hnew. unfold getRecentPosts, slice.
    exact (after_getAllPosts_run (fun l => Array_slice l 0 limit) h Hsub).
  - apply Hnew. unfold getPostsByTag, Posts.getPostsByTag, filter_.
    destruct (String.eqb tag "all"); [now apply getAllPosts_run|].
    exact (after_getAllPosts_run (Array_filter _) h Hsub).
  - apply Hnew. now apply getAllTags_run.
  - apply Hnew. unfold searchPosts, Posts.searchPosts, filter_.
    exact (after_getAllPosts_run (Array_filter _) h Hsub).
  - apply Hnew. now apply getRelatedPosts_run.
Qed.

End StoreFacts.

(** The store can tell: sorting the catalog itself, without the copy that
    [getAllPosts] takes first, does reorder it. *)
Lemma sort_reorders_its_receiver :
  let h : gmap nat Store.Arr := {[ 0%nat := Store.PostArr sample ]} in
  snd (Store.sort (H:=Store.Elem_Post) compareByDate 0%nat h) !! 0%nat
    = Some (Store.PostArr (getAllPosts sample))
  /\ getAllPosts sample <> sample.
Proof. split; [reflexivity | discriminate]. Qed.

(** C8: each of the seven query functions, called on a store in which
    [POSTS] holds the catalog [C], returns and leaves [POSTS] holding [C],
    the same records in the same order, as it leaves every other array the
    store held; what it returns is what the function of [Posts] computes
    from [C]; and the same call made again returns an equal result. *)
Theorem queries_leave_catalog_unchanged
        (POSTS : nat) (C : list Post) (h : gmap nat Store.Arr) (q : Store.Query) :
  h !! POSTS = Some (Store.PostArr C) ->
  exists ret h',
    Store.call POSTS q h = (ret, h')
    /\ h' !! POSTS = Some (Store.PostArr C)
    /\ h ⊆ h'
    /\ Store.observe h' ret = Some (Store.answer C q)
    /\ exists ret2 h'',
         Store.call POSTS q h' = (ret2, h'')
         /\ h'' !! POSTS = Some (Store.PostArr C)
         /\ Store.observe h'' ret2 = Store.observe h' ret.
Proof.
  intros HP.
  destruct (call_run POSTS C h HP q h (reflexivity h)) as (ret & h' & Hcall & Hsub & Hobs).
  assert (HP' : h' !! POSTS = Some (Store.PostArr C))
    by exact (lookup_weaken _ _ _ _ HP Hsub).
  destruct (call_run POSTS C h' HP' q h' (reflexivity h'))
    as (ret2 & h'' & Hcall2 & Hsub2 & Hobs2).
  exists ret, h'. repeat (split; [assumption|]).
  exists ret2, h''. split; [assumption|]. split.
  - exact (lookup_weaken _ _ _ _ HP' Hsub2).
  - now rewrite Hobs, Hobs2.
Qed.

Lemma queries_leave_catalog_unchanged_witness :
  let h : gmap nat Store.Arr := {[ 0%nat := Store.PostArr sample ]} in
  h !! 0%nat = Some (Store.PostArr sample)
  /\ exists ret h',
       Store.call 0%nat Store.GetAllPosts h = (ret, h')
       /\ h' !! 0%nat = Some (Store.PostArr sample)
       /\ Store.observe h' ret = Some (Store.AArray (Store.PostArr (getAllPosts sample))).
Proof.
  intros h.
  assert (HP : h !! 0%nat = Some (Store.PostArr sample)) by reflexivity.
  split; [exact HP|].
  destruct (queries_leave_catalog_unchanged 0%nat sample h Store.GetAllPosts HP)
    as (ret & h' & Hcall & HP' & _ & Hobs & _).
  exists ret, h'. now repeat split.
Defined.

(* ===================================================================== *)
(** ** More on the queries of the catalog *)
(* ===================================================================== *)

(** *** The tags of the catalog *)

Lemma Set_add_In s x y : In y (Set_add s x) <-> In y s \/ y = x.
Proof.
  unfold Set_add. destruct (Array_includes s x) eqn:Hi.
  - apply Array_includes_spec in Hi. split; [tauto|]. intros [H| ->]; assumption.
  - rewrite in_app_iff. simpl. intuition.
Qed.

Lemma Set_add_NoDup s x : List.NoDup s -> List.NoDup (Set_add s x).
Proof.
  intros Hs. unfold Set_add. destruct (Array_includes s x) eqn:Hi; [assumption|].
  apply List.NoDup_app; [assumption | repeat constructor; simpl; tauto |].
  intros y Hy [<-|[]].
  apply Array_includes_spec in Hy. congruence.
Qed.

Lemma fold_Set_add_In l acc y :
  In y (fold_left Set_add l acc) <-> In y acc \/ In y l.
Proof.
  revert acc. induction l as [|x l IH]; intros acc; simpl; [tauto|].
  rewrite IH, Set_add_In. intuition.
Qed.

Lemma fold_Set_add_NoDup l acc :
  List.NoDup acc -> List.NoDup (fold_left Set_add l acc).
Proof.
  revert acc. induction l as [|x l IH]; intros acc Hacc; simpl; [assumption|].
  apply IH. now apply Set_add_NoDup.
Qed.

(** Sorting with a comparator that is total and transitive. *)
Section SortByOrder.
Context {A : Type}.
Variable comparefn : A -> A -> Z.
Hypothesis comparefn_total : forall a b, 0 < comparefn a b -> comparefn b a <= 0.
Hypothesis comparefn_trans :
  forall a b c, comparefn a b <= 0 -> comparefn b c <= 0 -> comparefn a c <= 0.

Lemma sort_insert_ordered x l :
  StronglySorted (fun a b => comparefn a b <= 0) l ->
  StronglySorted (fun a b => comparefn a b <= 0) (sort_insert comparefn x l).
Proof using comparefn_total comparefn_trans.
  induction 1 as [|y l Hl IH Hy]; simpl.
  - repeat constructor.
  - destruct (Z.leb_spec (comparefn x y) 0) as [Hle|Hgt].
    + constructor; [now constructor|].
      constructor; [assumption|].
      eapply List.Forall_impl; [|exact Hy]. intros z Hz.
      now apply (comparefn_trans x y z).
    + constructor; [exact IH|].
      rewrite List.Forall_forall in *. intros z Hz.
      apply (Permutation_in _ (sort_insert_perm _ x l)) in Hz.
      destruct Hz as [<-|Hz]; [now apply comparefn_total | now apply Hy].
Qed.

Lemma Array_sort_ordered l :
  StronglySorted (fun a b => comparefn a b <= 0) (Array_sort comparefn l).
Proof using comparefn_total comparefn_trans.
  induction l as [|x l IH]; simpl; [constructor|].
  now apply sort_insert_ordered.
Qed.
End SortByOrder.

Lemma compareStrings_le a b : compareStrings a b <= 0 <-> String.compare a b <> Gt.
Proof. unfold compareStrings. destruct (String.compare a b); split; (lia || congruence). Qed.

Lemma String_compare_le_trans a b c :
  String.compare a b <> Gt -> String.compare b c <> Gt -> String.compare a c <> Gt.
Proof.
  revert b c. induction a as [|x a IH]; intros [|y b] [|z c]; simpl;
    try congruence.
  unfold Ascii.compare.
  destruct (N.compare_spec (N_of_ascii x) (N_of_ascii y)) as [Hxy|Hxy|Hxy];
    destruct (N.compare_spec (N_of_ascii y) (N_of_ascii z)) as [Hyz|Hyz|Hyz];
    destruct (N.compare_spec (N_of_ascii x) (N_of_ascii z)) as [Hxz|Hxz|Hxz];
    try congruence; try lia.
  apply IH.
Qed.

Lemma compareStrings_total a b : 0 < compareStrings a b -> compareStrings b a <= 0.
Proof.
  unfold compareStrings. rewrite (String.compare_antisym b a).
  destruct (String.compare a b); simpl; lia.
Qed.

Lemma compareStrings_trans a b c :
  compareStrings a b <= 0 -> compareStrings b c <= 0 -> compareStrings a c <= 0.
Proof. rewrite !compareStrings_le. apply String_compare_le_trans. Qed.

Lemma sorted_NoDup_strict l :
  StronglySorted (fun a b => compareStrings a b <= 0) l -> List.NoDup l ->
  StronglySorted stringLt l.
Proof.
  induction 1 as [|x l Hl IH Hx]; intros Hnd; constructor;
    inversion Hnd as [|? ? Hnotin Hnd']; subst.
  - now apply IH.
  - rewrite List.Forall_forall in *. intros y Hy.
    specialize (Hx y Hy). apply compareStrings_le in Hx. unfold stringLt.
    destruct (String.compare x y) eqn:Hc; [|reflexivity|congruence].
    apply String.compare_eq_iff in Hc. now subst.
Qed.

Lemma In_getAllTags C t :
  In t (getAllTags C) <-> exists p, In p C /\ In t (tags p).
Proof.
  unfold getAllTags, Set_from.
  rewrite In_Array_sort, fold_Set_add_In, in_flat_map. simpl. tauto.
Qed.

(** X1: [getAllTags C] holds exactly the tags that some post of [C]
    carries, told apart letter for letter, each of them once, in strictly
    ascending order of the default sort. *)
Theorem getAllTags_distinct_sorted (C : list Post) :
  (forall t, In t (getAllTags C) <-> exists p, In p C /\ In t (tags p))
  /\ List.NoDup (getAllTags C)
  /\ StronglySorted stringLt (getAllTags C).
Proof.
  split; [intros t; apply In_getAllTags|].
  assert (Hnd : List.NoDup (getAllTags C)).
  { unfold getAllTags, Set_from.
    eapply Permutation.Permutation_NoDup; [symmetry; apply Array_sort_perm|].
    apply fold_Set_add_NoDup. constructor. }
  split; [exact Hnd|].
  apply sorted_NoDup_strict; [|exact Hnd].
  apply Array_sort_ordered; [apply compareStrings_total | apply compareStrings_trans].
Qed.

Example getAllTags_sample :
  getAllTags sample = ["C++"; "Go"; "Rust"; "all"; "c++"]%string.
Proof. reflexivity. Qed.

(** *** The most recent posts *)

Lemma StronglySorted_app_cross {A : Type} (R : A -> A -> Prop) l1 l2 x y :
  StronglySorted R (l1 ++ l2) -> In x l1 -> In y l2 -> R x y.
Proof.
  induction l1 as [|a l1 IH]; simpl; intros Hs Hx Hy; [destruct Hx|].
  inversion Hs as [|? ? Hl Ha]; subst. destruct Hx as [->|Hx].
  - rewrite List.Forall_forall in Ha. apply Ha, in_or_app. now right.
  - now apply IH.
Qed.

Lemma getRecentPosts_firstn C limit :
  0 <= limit -> getRecentPosts C limit = firstn (Z.to_nat limit) (getAllPosts C).
Proof. intros Hl. unfold getRecentPosts. now apply Array_slice_0. Qed.

(** X2: for a limit [limit >= 0] on a catalog with well-formed dates,
    [getRecentPosts C limit] is the beginning of the listing, of
    [min limit (length C)] posts, and every post it returns is at least as
    recent as every post it leaves out. *)
Theorem getRecentPosts_are_the_newest (C : list Post) (limit : Z) :
  validDates C ->
  0 <= limit ->
  exists rest,
    getAllPosts C = getRecentPosts C limit ++ rest
    /\ length (getRecentPosts C limit) = Nat.min (Z.to_nat limit) (length C)
    /\ Permutation (getRecentPosts C limit ++ rest) C
    /\ forall p q, In p (getRecentPosts C limit) -> In q rest ->
                   timeValue q <= timeValue p.
Proof.
  intros Hv Hl. exists (skipn (Z.to_nat limit) (getAllPosts C)).
  rewrite getRecentPosts_firstn by assumption.
  rewrite firstn_skipn. split; [reflexivity|]. split; [|split].
  - rewrite length_firstn. unfold getAllPosts. now rewrite length_Array_sort.
  - apply getAllPosts_perm.
  - intros p q Hp Hq.
    pose proof (getAllPosts_newestFirst C Hv) as Hs. unfold newestFirst in Hs.
    rewrite <- (firstn_skipn (Z.to_nat limit) (getAllPosts C)) in Hs.
    exact (StronglySorted_app_cross _ _ _ p q Hs Hp Hq).
Qed.

Lemma getRecentPosts_are_the_newest_witness :
  validDates sample /\ 0 <= 2
  /\ map id (getRecentPosts sample 2) = ["b"; "d"]%string
  /\ exists rest, getAllPosts sample = getRecentPosts sample 2 ++ rest.
Proof.
  assert (Hl : 0 <= 2) by lia.
  split; [exact sample_validDates|]. split; [exact Hl|]. split; [reflexivity|].
  destruct (getRecentPosts_are_the_newest sample 2 sample_validDates Hl)
    as (rest & Heq & _).
  now exists rest.
Defined.

(** *** Search and tag filter together *)














(** *** When there are related posts *)

Lemma getPostById_unique C p :
  List.NoDup (map id C) -> In p C -> getPostById C (id p) = Some p.
Proof.
  intros Hnd Hp. induction C as [|x C IH]; [destruct Hp|].
  unfold getPostById, Array_find in *. simpl in *.
  inversion Hnd as [|? ? Hx Hnd']; subst.
  destruct Hp as [->|Hp]; [now rewrite String.eqb_refl|].
  destruct (String.eqb_spec (id x) (id p)) as [Heq|_]; [|now apply IH].
  exfalso. apply Hx. rewrite Heq. now apply in_map.
Qed.

Lemma firstn_nil_iff {A : Type} n (l : list A) :
  (0 < n)%nat -> (firstn n l = [] <-> l = []).
Proof.
  intros Hn. destruct n; [lia|]. destruct l; simpl; split; congruence.
Qed.

Lemma Array_sort_nil_iff {A : Type} (c : A -> A -> Z) l :
  Array_sort c l = [] <-> l = [].
Proof.
  split; [|now intros ->]. intros Hs.
  pose proof (length_Array_sort c l) as Hlen. rewrite Hs in Hlen.
  destruct l; [reflexivity | discriminate].
Qed.

Lemma candidates_nil_iff C i source :
  candidates C i source = [] <->
  forall p, In p C -> id p <> i -> ~ sharesTag source p.
Proof.
  split.
  - intros Hnil p Hp Hid Hshare.
    assert (Hin : In (mkScored p (matchingTags source p)) (candidates C i source)).
    { apply In_candidates. simpl. repeat split; try assumption.
      now apply matchingTags_pos. }
    rewrite Hnil in Hin. destruct Hin.
  - intros Hall. destruct (candidates C i source) as [|r l] eqn:Hc; [reflexivity|].
    assert (Hin : In r (candidates C i source)) by (rewrite Hc; now left).
    apply In_candidates in Hin. destruct Hin as (Hp & Hid & Hsc & Hpos).
    exfalso. apply (Hall (post r) Hp Hid).
    apply matchingTags_pos. now rewrite <- Hsc.
Qed.

Lemma getRelatedPosts_nil_iff C i k source :
  0 < k -> getPostById C i = Some source ->
  (getRelatedPosts C i k = [] <->
   forall p, In p C -> id p <> i -> ~ sharesTag source p).
Proof.
  intros Hk Hs. rewrite (getRelatedPosts_known C i k source) by (assumption || lia).
  rewrite firstn_nil_iff by lia.
  rewrite Array_sort_nil_iff. apply candidates_nil_iff.
Qed.

Lemma In_getRelatedPosts_all C i k source r :
  Z.of_nat (length C) <= k -> getPostById C i = Some source ->
  (In r (getRelatedPosts C i k) <-> In r (candidates C i source)).
Proof.
  intros Hk Hs. rewrite (getRelatedPosts_known C i k source) by (assumption || lia).
  rewrite firstn_all2.
  - apply In_Array_sort.
  - rewrite length_Array_sort. unfold candidates, Array_filter.
    etransitivity; [apply filter_length_le|].
    rewrite length_map.
    etransitivity; [apply filter_length_le|]. lia.
Qed.

(** X5: for a limit of at least 1 and a post [source] found under the id
    [i], [getRelatedPosts C i k] is empty exactly when no other post of the
    catalog has a tag that is, letter for letter, a tag of [source]. *)
Theorem getRelatedPosts_empty_iff_no_shared_tag
        (C : list Post) (i : string) (k : Z) (source : Post) :
  0 < k ->
  getPostById C i = Some source ->
  (getRelatedPosts C i k = [] <->
   forall p, In p C -> id p <> i -> ~ sharesTag source p).
Proof. apply getRelatedPosts_nil_iff. Qed.

Lemma getRelatedPosts_empty_iff_no_shared_tag_witness :
  0 < 3
  /\ getPostById sample "b" = nth_error sample 1
  /\ getRelatedPosts sample "b" 3 = [].
Proof.
  assert (Hk : 0 < 3) by lia.
  split; [exact Hk|]. split; [reflexivity|].
  apply (getRelatedPosts_empty_iff_no_shared_tag sample "b" 3
           (examplePost "b" "2026-03-01" ["c++"%string]) Hk eq_refl).
  intros p Hp Hid [t [Ht Hs]]. simpl in Hs. destruct Hs as [<-|[]].
  simpl in Hp. intuition (subst; simpl in *; intuition congruence).
Defined.

(** X6: in a catalog whose ids are unique and with a limit that cuts
    nothing off (at least the size of the catalog), being related is
    mutual: a post [b] is among the related posts of [a] exactly when [a]
    is among those of [b]. *)
Theorem getRelatedPosts_mutual (C : list Post) (a b : Post) (k : Z) :
  List.NoDup (map id C) ->
  In a C -> In b C ->
  Z.of_nat (length C) <= k ->
  (In b (map post (getRelatedPosts C (id a) k))
   <-> In a (map post (getRelatedPosts C (id b) k))).
Proof.
  intros Hnd Ha Hb Hk.
  pose proof (getPostById_unique C a Hnd Ha) as Hfa.
  pose proof (getPostById_unique C b Hnd Hb) as Hfb.
  assert (Hone : forall x y, In x C -> In y C -> getPostById C (id x) = Some x ->
            In y (map post (getRelatedPosts C (id x) k)) ->
            id y <> id x /\ sharesTag x y).
  { intros x y Hx Hy Hfx Hin. apply in_map_iff in Hin.
    destruct Hin as [r [<- Hr]].
    apply (In_getRelatedPosts_all C (id x) k x r Hk Hfx), In_candidates in Hr.
    destruct Hr as (_ & Hid & Hsc & Hpos). split; [assumption|].
    apply matchingTags_pos. now rewrite <- Hsc. }
  assert (Htwo : forall x y, In x C -> In y C -> getPostById C (id x) = Some x ->
            id y <> id x -> sharesTag x y ->
            In y (map post (getRelatedPosts C (id x) k))).
  { intros x y Hx Hy Hfx Hid Hshare. apply in_map_iff.
    exists (mkScored y (matchingTags x y)). split; [reflexivity|].
    apply (In_getRelatedPosts_all C (id x) k x _ Hk Hfx), In_candidates.
    simpl. repeat split; try assumption. now apply matchingTags_pos. }
  assert (Hsym : forall x y, sharesTag x y -> sharesTag y x).
  { intros x y [t [H1 H2]]. exists t. now split. }
  split; intros Hin.
  - destruct (Hone a b Ha Hb Hfa Hin) as [Hid Hshare].
    apply Htwo; [assumption | assumption | assumption | congruence | now apply Hsym].
  - destruct (Hone b a Hb Ha Hfb Hin) as [Hid Hshare].
    apply Htwo; [assumption | assumption | assumption | congruence | now apply Hsym].
Qed.

Lemma getRelatedPosts_mutual_witness :
  List.NoDup (map id sample)
  /\ Z.of_nat (length sample) <= 4
  /\ map (fun r => id (post r)) (getRelatedPosts sample "a" 4) = ["c"]%string
  /\ In (examplePost "a" "2026-01-01" ["C++"; "all"]%string)
        (map post (getRelatedPosts sample "c" 4)).
Proof.
  assert (Hnd : List.NoDup (map id sample)).
  { simpl. repeat constructor; simpl; intuition discriminate. }
  assert (Hk : Z.of_nat (length sample) <= 4) by (simpl; lia).
  split; [exact Hnd|]. split; [exact Hk|]. split; [reflexivity|].
  apply (getRelatedPosts_mutual sample
           (examplePost "a" "2026-01-01" ["C++"; "all"]%string)
           (examplePost "c" "2026-01-01" ["Rust"; "C++"; "C++"]%string) 4 Hnd);
    [simpl; tauto | simpl; tauto | exact Hk |].
  simpl. tauto.
Defined.

(* ===================================================================== *)
(** ** More on the blog page *)
(* ===================================================================== *)

Lemma postsToShow_chunk {A : Type} (l : list A) (p : Z) :
  1 <= p ->
  Blog.postsToShow l p = firstn 9 (skipn (Z.to_nat ((p - 1) * 9)) l).
Proof.
  intros Hp. apply nth_error_ext. intros i.
  rewrite postsToShow_nth_error by assumption.
  now rewrite nth_error_firstn, nth_error_skipn.
Qed.

Lemma chunks_concat {A : Type} (n : nat) (l : list A) :
  (length l <= 9 * n)%nat ->
  concat (map (fun i => firstn 9 (skipn (9 * i) l)) (seq 0 n)) = l.
Proof.
  revert l. induction n as [|n IH]; intros l Hlen.
  - destruct l; [reflexivity | simpl in Hlen; lia].
  - cbn [seq map concat]. rewrite <- seq_shift, map_map.
    replace (9 * 0)%nat with 0%nat by lia. cbn [skipn].
    transitivity (firstn 9 l ++ skipn 9 l); [|apply firstn_skipn].
    f_equal.
    etransitivity; [|apply (IH (skipn 9 l)); rewrite length_skipn; lia].
    f_equal. apply map_ext. intros i.
    rewrite skipn_skipn. do 2 f_equal. lia.
Qed.

Lemma totalPages_spec st :
  let n := Z.of_nat (length (Blog.filteredPosts st)) in
  9 * (Blog.totalPages st - 1) < n
  /\ n <= 9 * Blog.totalPages st /\ 0 <= Blog.totalPages st.
Proof.
  unfold Blog.totalPages, Blog.postsPerPage. cbv zeta.
  Z.div_mod_to_equations. lia.
Qed.

Lemma postsToShow_in_range st p :
  1 <= p <= Blog.totalPages st ->
  Blog.postsToShow (Blog.filteredPosts st) p <> []
  /\ (p < Blog.totalPages st ->
      length (Blog.postsToShow (Blog.filteredPosts st) p) = 9%nat).
Proof.
  intros Hp. pose proof (totalPages_spec st) as Ht. cbv zeta in Ht.
  rewrite postsToShow_chunk by lia. split.
  - intros Hnil.
    assert (Hlen : length (firstn 9 (skipn (Z.to_nat ((p - 1) * 9))
                                       (Blog.filteredPosts st))) = 0%nat)
      by now rewrite Hnil.
    rewrite length_firstn, length_skipn in Hlen. lia.
  - intros Hlt. rewrite length_firstn, length_skipn. lia.
Qed.

(** X7: the pages of the listing cut the sequence [filteredPosts] into
    pieces that, put one after the other from page 1 to the last page,
    give the sequence back: every post is on exactly one page; no page of
    the range is empty and every page before the last holds 9 posts. *)
Theorem pages_cover_filteredPosts (st : Blog.State) :
  concat (map (fun p => Blog.postsToShow (Blog.filteredPosts st) (Z.of_nat p))
              (seq 1 (Z.to_nat (Blog.totalPages st))))
    = Blog.filteredPosts st
  /\ forall p, 1 <= p <= Blog.totalPages st ->
       Blog.postsToShow (Blog.filteredPosts st) p <> []
       /\ (p < Blog.totalPages st ->
           length (Blog.postsToShow (Blog.filteredPosts st) p) = 9%nat).
Proof.
  split; [|apply postsToShow_in_range].
  pose proof (totalPages_spec st) as Ht. cbv zeta in Ht.
  rewrite <- seq_shift, map_map.
  etransitivity;
    [|apply (chunks_concat (Z.to_nat (Blog.totalPages st)) (Blog.filteredPosts st)); lia].
  f_equal. apply map_ext. intros i.
  rewrite postsToShow_chunk by lia. do 2 f_equal. lia.
Qed.

Lemma displayPosts_with_container st box :
  Blog.container st = Some box ->
  Blog.displayPosts st
    = Blog.mkState (Blog.currentTag st) (Blog.currentPage st) (Blog.filteredPosts st)
                   (Blog.searchInput st) (Some (shownBox st)).
Proof.
  intros Hb. unfold Blog.displayPosts, shownBox. rewrite Hb. cbv zeta.
  now destruct (Blog.postsToShow (Blog.filteredPosts st) (Blog.currentPage st)).
Qed.

(** X8: [changePage] ignores a page below 1 or above the last page: the
    state stays as it is; for a page of the range it makes that page the
    current one, keeps the sequence of posts, and shows the posts of that
    page, of which there is at least one. *)
Theorem changePage_guards_the_range (st : Blog.State) (page : Z) (box : Blog.Container) :
  Blog.container st = Some box ->
  (page < 1 \/ Blog.totalPages st < page -> Blog.changePage page st = st)
  /\ (1 <= page <= Blog.totalPages st ->
      let st' := Blog.changePage page st in
      Blog.currentPage st' = page
      /\ Blog.filteredPosts st' = Blog.filteredPosts st
      /\ Blog.currentTag st' = Blog.currentTag st
      /\ Blog.container st'
         = Some (Blog.Cards (Blog.postsToShow (Blog.filteredPosts st) page))
      /\ Blog.postsToShow (Blog.filteredPosts st) page <> []).
Proof.
  intros Hb. unfold Blog.changePage. split.
  - intros Hout.
    destruct (Z.ltb_spec page 1), (Z.ltb_spec (Blog.totalPages st) page);
      simpl; (reflexivity || lia).
  - intros Hin. cbv zeta.
    destruct (Z.ltb_spec page 1), (Z.ltb_spec (Blog.totalPages st) page);
      simpl; try lia.
    destruct (postsToShow_in_range st page Hin) as [Hne _].
    rewrite (displayPosts_with_container _ box) by exact Hb.
    unfold shownBox. simpl.
    destruct (Blog.postsToShow (Blog.filteredPosts st) page); [contradiction|].
    now repeat split.
Qed.

Lemma changePage_guards_the_range_witness :
  let st := Blog.mkState "all" 1 twenty None (Some Blog.Loading) in
  Blog.container st = Some Blog.Loading
  /\ Blog.totalPages st = 3
  /\ Blog.changePage 4 st = st
  /\ Blog.changePage 0 st = st
  /\ Blog.currentPage (Blog.changePage 3 st) = 3.
Proof.
  intros st.
  destruct (changePage_guards_the_range st 4 Blog.Loading eq_refl) as [Hout4 _].
  destruct (changePage_guards_the_range st 0 Blog.Loading eq_refl) as [Hout0 _].
  destruct (changePage_guards_the_range st 3 Blog.Loading eq_refl) as [_ Hin].
  split; [reflexivity|]. split; [reflexivity|].
  split; [apply Hout4; right; vm_compute; reflexivity|].
  split; [apply Hout0; left; lia|].
  apply Hin. vm_compute. split; discriminate.
Defined.

Lemma shownBox_NoPostsFound st :
  pageInRange st ->
  (shownBox st = Blog.NoPostsFound <-> Blog.filteredPosts st = []).
Proof.
  intros Hr. unfold shownBox.
  assert (Hiff : Blog.postsToShow (Blog.filteredPosts st) (Blog.currentPage st) = []
                 <-> Blog.filteredPosts st = []).
  { destruct Hr as [H1|Hin].
    - rewrite H1, postsToShow_chunk by lia. simpl. apply firstn_nil_iff. lia.
    - destruct (postsToShow_in_range st _ Hin) as [Hne _].
      pose proof (totalPages_spec st) as Ht. cbv zeta in Ht.
      split; [contradiction|]. intros Hnil. rewrite Hnil in Ht. simpl in Ht. lia. }
  destruct (Blog.postsToShow (Blog.filteredPosts st) (Blog.currentPage st)) eqn:Hs.
  - split; [intros _; now apply Hiff | reflexivity].
  - split; [discriminate|]. intros Hnil. apply Hiff in Hnil. discriminate.
Qed.

(** What holds of the page after [loadPosts] and after every event. *)
Lemma blog_step_invariant C st e :
  let Inv st :=
    pageInRange st
    /\ Blog.container st = Some (shownBox st)
    /\ (Blog.filteredPosts st = getPostsByTag C (Blog.currentTag st)
        \/ exists q, trim q <> ""%string /\ Blog.filteredPosts st = searchPosts C q) in
  Inv st -> Inv (Blog.step C st e).
Proof.
  intros Inv (Hr & Hb & Hf).
  assert (Htag : forall tag page fp si,
            Inv (Blog.filterByTag C tag (Blog.mkState tag page fp si (Blog.container st)))).
  { intros tag page fp si. unfold Blog.filterByTag, Blog.loadPosts. simpl.
    rewrite (displayPosts_with_container _ (shownBox st)) by exact Hb.
    unfold Inv, pageInRange, shownBox. simpl. auto. }
  destruct e as [tag|value|page]; simpl.
  - unfold Blog.filterByTag, Blog.loadPosts. simpl.
    rewrite (displayPosts_with_container _ (shownBox st)) by exact Hb.
    unfold Inv, pageInRange, shownBox. simpl. auto.
  - unfold Blog.handleSearch. simpl.
    destruct (String.eqb_spec (trim value) "") as [Hblank|Hq].
    + unfold Blog.filterByTag, Blog.loadPosts. simpl.
      rewrite (displayPosts_with_container _ (shownBox st)) by exact Hb.
      unfold Inv, pageInRange, shownBox. simpl. auto.
    + rewrite (displayPosts_with_container _ (shownBox st)) by exact Hb.
      unfold Inv, pageInRange, shownBox. simpl.
      split; [auto|]. split; [reflexivity|]. right. now exists value.
  - unfold Blog.changePage.
    destruct (Z.ltb_spec page 1), (Z.ltb_spec (Blog.totalPages st) page);
      simpl; try (now repeat split).
    rewrite (displayPosts_with_container _ (shownBox st)) by exact Hb.
    unfold Inv, pageInRange, shownBox, Blog.totalPages in *. simpl.
    split; [right; lia|]. split; [reflexivity | exact Hf].
Qed.

(** X9: once [loadPosts] has run, whatever the visitor does (clicks on
    tags, searches, clicks on pages, in any order), the current page is 1
    or a page that exists, the container shows the posts of that page of
    [filteredPosts], it shows "No posts found." exactly when
    [filteredPosts] is empty, and [filteredPosts] is the result of the tag
    filter for the current tag or of a search for a query that is not
    blank. *)
Theorem blog_page_stays_consistent
        (C : list Post) (input : option string) (box : Blog.Container)
        (events : list Blog.Event) :
  let st := Blog.run C (Blog.loadPosts C (Blog.initial input (Some box))) events in
  pageInRange st
  /\ Blog.container st = Some (shownBox st)
  /\ (Blog.container st = Some Blog.NoPostsFound <-> Blog.filteredPosts st = [])
  /\ (Blog.filteredPosts st = getPostsByTag C (Blog.currentTag st)
      \/ exists q, trim q <> ""%string /\ Blog.filteredPosts st = searchPosts C q).
Proof.
  intros st.
  assert (Hinv : pageInRange st
    /\ Blog.container st = Some (shownBox st)
    /\ (Blog.filteredPosts st = getPostsByTag C (Blog.currentTag st)
        \/ exists q, trim q <> ""%string /\ Blog.filteredPosts st = searchPosts C q)).
  { subst st. unfold Blog.run.
    assert (H0 : let s0 := Blog.loadPosts C (Blog.initial input (Some box)) in
                 pageInRange s0
                 /\ Blog.container s0 = Some (shownBox s0)
                 /\ (Blog.filteredPosts s0 = getPostsByTag C (Blog.currentTag s0)
                     \/ exists q, trim q <> ""%string
                                  /\ Blog.filteredPosts s0 = searchPosts C q)).
    { unfold Blog.loadPosts, Blog.initial.
      rewrite (displayPosts_with_container _ box) by reflexivity.
      unfold pageInRange, shownBox. simpl.
      split; [now left|]. split; [reflexivity | now left]. }
    cbv zeta in H0.
    generalize dependent (Blog.loadPosts C (Blog.initial input (Some box))).
    induction events as [|e events IH]; intros s0 H0; [exact H0|].
    simpl. apply IH. now apply (blog_step_invariant C s0 e). }
  destruct Hinv as (Hr & Hb & Hf).
  split; [exact Hr|]. split; [exact Hb|]. split; [|exact Hf].
  rewrite Hb. rewrite <- (shownBox_NoPostsFound st Hr).
  split; [now intros [= ->] | now intros ->].
Qed.

Example blog_page_session :
  let st := Blog.run POSTS (Blog.loadPosts POSTS (Blog.initial (Some ""%string) (Some Blog.Loading)))
              [Blog.TagClick "C++"; Blog.SearchInput "shader"; Blog.PageClick 2;
               Blog.SearchInput "   "] in
  Blog.currentTag st = "C++"%string
  /\ Blog.currentPage st = 1
  /\ Blog.searchInput st = Some ""%string
  /\ map id (Blog.filteredPosts st)
     = ["understanding-move-semantics-cpp"; "modern-cpp-best-practices"]%string.
Proof. repeat split. Qed.

Lemma getPostsByTag_of_a_tag C t :
  In t (getAllTags C) -> getPostsByTag C t <> [].
Proof.
  intros Ht. apply In_getAllTags in Ht. destruct Ht as [p [Hp Htag]].
  assert (Hin : In p (getPostsByTag C t)).
  { unfold getPostsByTag. destruct (String.eqb t "all").
    - now apply In_getAllPosts.
    - apply filter_In. split; [now apply In_getAllPosts|].
      apply (tagFilter_spec t p). now exists t. }
  intros Hnil. rewrite Hnil in Hin. destruct Hin.
Qed.

(** X10: every tag button that [initTagFilters] creates, one for each tag
    of [getAllTags], shows posts when it is clicked, never "No posts
    found.": [filterByTag] makes that tag the current one, goes to page 1,
    empties the search box and shows the first posts (at most 9) of the
    posts of that tag. *)
Theorem tag_buttons_show_posts
        (C : list Post) (t : string) (st : Blog.State) (box : Blog.Container) :
  In t (getAllTags C) ->
  Blog.container st = Some box ->
  let st' := Blog.filterByTag C t st in
  Blog.currentTag st' = t
  /\ Blog.currentPage st' = 1
  /\ (Blog.searchInput st' = None \/ Blog.searchInput st' = Some ""%string)
  /\ Blog.filteredPosts st' = getPostsByTag C t
  /\ Blog.container st' = Some (Blog.Cards (firstn 9 (getPostsByTag C t)))
  /\ firstn 9 (getPostsByTag C t) <> [].
Proof.
  intros Ht Hb st'. subst st'.
  pose proof (getPostsByTag_of_a_tag C t Ht) as Hne.
  assert (Hne9 : firstn 9 (getPostsByTag C t) <> []).
  { intros Hnil. apply Hne. apply (firstn_nil_iff 9); [lia | assumption]. }
  unfold Blog.filterByTag, Blog.loadPosts. simpl.
  rewrite (displayPosts_with_container _ box) by exact Hb.
  unfold shownBox. simpl. rewrite postsToShow_chunk by lia.
  change (skipn (Z.to_nat ((1 - 1) * 9)) (getPostsByTag C t))
    with (getPostsByTag C t).
  destruct (firstn 9 (getPostsByTag C t)) eqn:Hf; [contradiction|].
  split; [reflexivity|]. split; [reflexivity|].
  split; [destruct (Blog.searchInput st); auto|].
  split; [reflexivity|]. split; [reflexivity | discriminate].
Qed.

Lemma tag_buttons_show_posts_witness :
  let st := Blog.initial (Some "typed"%string) (Some Blog.Loading) in
  In "Rust"%string (getAllTags sample)
  /\ Blog.container st = Some Blog.Loading
  /\ Blog.searchInput (Blog.filterByTag sample "Rust" st) = Some ""%string
  /\ firstn 9 (getPostsByTag sample "Rust") <> [].
Proof.
  intros st.
  assert (Ht : In "Rust"%string (getAllTags sample)) by (simpl; tauto).
  split; [exact Ht|]. split; [reflexivity|]. split; [reflexivity|].
  destruct (tag_buttons_show_posts sample "Rust" st Blog.Loading Ht eq_refl)
    as (_ & _ & _ & _ & _ & Hne).
  exact Hne.
Defined.

(** *** The row of page controls *)













(* ===================================================================== *)
(** ** More on the theme switch *)
(* ===================================================================== *)

Lemma applyTheme_consistent theme st :
  let st' := Theme.applyTheme theme st in
  Theme.storedTheme st' = Some theme
  /\ Theme.dataTheme st' = Some theme
  /\ iconMatches st'.
Proof.
  simpl. repeat split. unfold iconMatches. simpl. intros icon t Hi [= <-].
  destruct (Theme.themeIcon st); [|discriminate]. now injection Hi as <-.
Qed.

(** What holds of the switch once a theme has been applied. *)
Lemma theme_step_invariant st e :
  let Inv st :=
    Theme.storedTheme st = Theme.dataTheme st
    /\ Theme.truthy (Theme.storedTheme st) = true
    /\ iconMatches st in
  Inv st -> Inv (Theme.step st e).
Proof.
  intros Inv (Heq & Hp & Hicon). destruct e as [| |m]; simpl.
  - split; [reflexivity|]. split; [apply getTheme_truthy|].
    unfold iconMatches. simpl. intros icon t Hi [= <-].
    destruct (Theme.themeIcon st); [|discriminate]. now injection Hi as <-.
  - destruct (Theme.toggleBound st); [|now repeat split].
    unfold Theme.toggleTheme.
    destruct (applyTheme_consistent
                match Theme.dataTheme st with
                | Some currentTheme =>
                    if String.eqb currentTheme "dark" then "light"%string else "dark"%string
                | None => "dark"%string
                end st) as (Hs & Hd & Hi).
    split; [now rewrite Hs, Hd|]. split; [|exact Hi].
    rewrite Hs. destruct (Theme.dataTheme st) as [cur|]; [|reflexivity].
    now destruct (String.eqb cur "dark").
  - rewrite Hp. simpl. now repeat split.
Qed.


Lemma theme_run_app st l1 l2 :
  Theme.run st (l1 ++ l2) = Theme.run (Theme.run st l1) l2.
Proof. unfold Theme.run. apply fold_left_app. Qed.

Lemma theme_run_invariant st events :
  Theme.storedTheme st = Theme.dataTheme st ->
  Theme.truthy (Theme.storedTheme st) = true ->
  iconMatches st ->
  let st' := Theme.run st events in
  Theme.storedTheme st' = Theme.dataTheme st'
  /\ Theme.truthy (Theme.storedTheme st') = true
  /\ iconMatches st'.
Proof.
  revert st. induction events as [|e events IH]; intros st H1 H2 H3; simpl.
  - now repeat split.
  - destruct (theme_step_invariant st e (conj H1 (conj H2 H3))) as (H1' & H2' & H3').
    now apply IH.
Qed.




(** A theme that is not one of the two is applied as it is found. *)
Example theme_foreign_value_is_applied :
  let st := Theme.step (Theme.mkState (Some "blue"%string) None None false false)
                       Theme.DOMContentLoaded in
  Theme.dataTheme st = Some "blue"%string
  /\ Theme.dataTheme (Theme.step st Theme.ToggleClick) = Some "dark"%string.
Proof. split; reflexivity. Qed.

Lemma toggle_flips st :
  Theme.toggleBound st = true ->
  Theme.dataTheme (Theme.step st Theme.ToggleClick) = otherTheme (Theme.dataTheme st)
  /\ Theme.toggleBound (Theme.step st Theme.ToggleClick) = true.
Proof.
  intros Hb. simpl. rewrite Hb. simpl. split; [|assumption].
  now destruct (Theme.dataTheme st).
Qed.

Lemma otherTheme_twice theme : lightOrDark theme -> otherTheme (otherTheme theme) = theme.
Proof. intros [->| ->]; reflexivity. Qed.

Lemma otherTheme_lightOrDark theme : lightOrDark (otherTheme theme).
Proof.
  unfold lightOrDark, otherTheme. destruct theme as [t|]; [|auto].
  destruct (String.eqb t "dark"); auto.
Qed.

Lemma toggles_keep_bound st n :
  Theme.toggleBound st = true ->
  Theme.toggleBound (Theme.run st (repeat Theme.ToggleClick n)) = true.
Proof.
  revert st. induction n as [|k IHk]; intros st Hb; [assumption|].
  simpl. apply IHk. now apply toggle_flips.
Qed.

(** X13: with the handler installed and [light] or [dark] applied, every
    press of the toggle changes the applied theme to the other of the two
    and persists it; after [n] presses the theme is the one it was when [n]
    is even, and the other one when [n] is odd. *)
Theorem toggle_alternates (st : Theme.State) (n : nat) :
  Theme.toggleBound st = true ->
  lightOrDark (Theme.dataTheme st) ->
  let st' := Theme.run st (repeat Theme.ToggleClick n) in
  Theme.dataTheme st'
    = (if Nat.even n then Theme.dataTheme st else otherTheme (Theme.dataTheme st))
  /\ (0 < n -> Theme.storedTheme st' = Theme.dataTheme st')%nat
  /\ otherTheme (Theme.dataTheme st) <> Theme.dataTheme st.
Proof.
  intros Hb Hld. cbv zeta. split; [|split].
  - revert st Hb Hld.
    induction n as [n IH] using (well_founded_induction Wf_nat.lt_wf).
    intros st Hb Hld. destruct n as [|[|n]]; [reflexivity| |].
    + simpl. now apply toggle_flips.
    + change (repeat Theme.ToggleClick (S (S n)))
        with (Theme.ToggleClick :: Theme.ToggleClick :: repeat Theme.ToggleClick n).
      change (Nat.even (S (S n))) with (Nat.even n).
      unfold Theme.run. cbn [fold_left].
      set (st2 := Theme.step (Theme.step st Theme.ToggleClick) Theme.ToggleClick).
      destruct (toggle_flips st Hb) as [Hd1 Hb1].
      destruct (toggle_flips _ Hb1) as [Hd2 Hb2]. fold st2 in Hd2, Hb2.
      assert (Hsame : Theme.dataTheme st2 = Theme.dataTheme st)
        by (rewrite Hd2, Hd1; now apply otherTheme_twice).
      fold (Theme.run st2 (repeat Theme.ToggleClick n)).
      rewrite (IH n) by (try lia; try assumption; now rewrite Hsame).
      now rewrite Hsame.
  - intros Hn. destruct n as [|n]; [lia|].
    replace (repeat Theme.ToggleClick (S n))
      with (repeat Theme.ToggleClick n ++ [Theme.ToggleClick])
      by (now rewrite <- repeat_cons).
    rewrite theme_run_app. set (st1 := Theme.run st (repeat Theme.ToggleClick n)).
    assert (Hb1 : Theme.toggleBound st1 = true) by now apply toggles_keep_bound.
    simpl. rewrite Hb1. reflexivity.
  - destruct Hld as [-> | ->]; discriminate.
Qed.

Lemma toggle_alternates_witness :
  let st := Theme.step (Theme.fresh false None) Theme.DOMContentLoaded in
  Theme.toggleBound st = true
  /\ lightOrDark (Theme.dataTheme st)
  /\ Theme.dataTheme (Theme.run st (repeat Theme.ToggleClick 3)) = Some "dark"%string.
Proof.
  intros st.
  assert (Hld : lightOrDark (Theme.dataTheme st)) by (left; reflexivity).
  split; [reflexivity|]. split; [exact Hld|].
  destruct (toggle_alternates st 3 eq_refl Hld) as [Hthree _].
  exact Hthree.
Defined.

(** X14: the theme survives a reload: when the page is opened again after
    it had loaded, with whatever preference of the system and whatever
    happened in between, it applies at load the theme that was applied
    last. *)
Theorem theme_survives_reload
        (st : Theme.State) (events : list Theme.Event) (dark : bool)
        (icon : option Theme.Icon) :
  let last := Theme.run st (Theme.DOMContentLoaded :: events) in
  Theme.dataTheme (Theme.step (Theme.reload last dark icon) Theme.DOMContentLoaded)
    = Theme.dataTheme last.
Proof.
  intros last.
  assert (Hinv : Theme.storedTheme last = Theme.dataTheme last
                 /\ Theme.truthy (Theme.storedTheme last) = true).
  { subst last.
    change (Theme.run st (Theme.DOMContentLoaded :: events))
      with (Theme.run (Theme.step st Theme.DOMContentLoaded) events).
    set (st2 := Theme.step st Theme.DOMContentLoaded).
    assert (H3 : iconMatches st2).
    { subst st2. unfold iconMatches. simpl. intros i t Hi [= <-].
      destruct (Theme.themeIcon st); [|discriminate]. now injection Hi as <-. }
    destruct (theme_run_invariant st2 events eq_refl (load_persists st) H3)
      as (H1' & H2' & _).
    now split. }
  destruct Hinv as [Heq Hp]. rewrite <- Heq.
  simpl. unfold Theme.getTheme. simpl.
  destruct (Theme.storedTheme last) as [saved|]; [|discriminate].
  simpl in Hp. simpl. now rewrite Hp.
Qed.

(* ===================================================================== *)
(** ** The page of one post *)
(* ===================================================================== *)



Example loadPost_empty_id_is_not_found :
  let C := [examplePost "" "2026-01-01" []] in
  getPostById C "" = nth_error C 0
  /\ PostPage.postBody
       (PostPage.loadPost C (Some ""%string) (fun _ => PostPage.Ok "text")
                          (PostPage.blank true))
     = PostPage.Message "Post not found".
Proof. split; reflexivity. Qed.

(** X16: for an id that is not empty and under which a post is found,
    [loadPost] puts the title, summary, date, reading time and tags of the
    post on the page and then, whatever became of the fetch, fills the
    section of related posts.  When the content arrives it is handed to
    the renderer; when the response is not [ok] or the fetch is rejected,
    the heading reads [Error] and the body holds the failure message, while
    the title of the document, the tags and the related posts are still
    those of the post. *)
Theorem loadPost_of_a_known_post
        (C : list Post) (i : string) (found : Post)
        (fetch : string -> PostPage.Response) (pg : PostPage.Page) :
  i <> ""%string ->
  getPostById C i = Some found ->
  let pg' := PostPage.loadPost C (Some i) fetch pg in
  PostPage.documentTitle pg' = (title found ++ " - TechBlog")%string
  /\ PostPage.description pg' = summary found
  /\ PostPage.postDate pg' = PostPage.formatDate (date found)
  /\ PostPage.postReadingTime pg' = readingTime found
  /\ PostPage.postTags pg' = tags found
  /\ PostPage.related pg' = PostPage.related (PostPage.loadRelatedPosts C i pg)
  /\ match fetch (content found) with
     | PostPage.Ok markdown =>
         PostPage.postTitle pg' = title found
         /\ PostPage.postBody pg' = PostPage.Markdown markdown
     | _ =>
         PostPage.postTitle pg' = "Error"%string
         /\ PostPage.postBody pg'
            = PostPage.Message "Failed to load post content. Please try again later."
     end.
Proof.
  intros Hne Hf. unfold PostPage.loadPost.
  destruct (String.eqb_spec i ""); [contradiction|]. rewrite Hf. cbv zeta.
  unfold PostPage.loadRelatedPosts.
  destruct (fetch (content found)); simpl;
    destruct (PostPage.related pg) eqn:Hrel; simpl; repeat split;
    now rewrite Hrel.
Qed.

Lemma loadPost_of_a_known_post_witness :
  let pg := PostPage.loadPost sample (Some "a"%string) (fun _ => PostPage.NotOk)
                              (PostPage.blank true) in
  "a"%string <> ""%string
  /\ getPostById sample "a" = nth_error sample 0
  /\ PostPage.postTitle pg = "Error"%string
  /\ PostPage.documentTitle pg = "Post a - TechBlog"%string
  /\ PostPage.postTags pg = ["C++"; "all"]%string.
Proof.
  intros pg.
  assert (Hne : "a"%string <> ""%string) by discriminate.
  split; [exact Hne|]. split; [reflexivity|].
  destruct (loadPost_of_a_known_post sample "a"
              (examplePost "a" "2026-01-01" ["C++"; "all"]%string)
              (fun _ => PostPage.NotOk) (PostPage.blank true) Hne eq_refl)
    as (Hdoc & _ & _ & _ & Htags & _ & Herr & _).
  split; [exact Herr|]. split; [exact Hdoc | exact Htags].
Defined.

(** X17: on a page that has the section, [loadRelatedPosts] for a post
    [source] found under [i] hides the section exactly when no other post
    of the catalog shares a tag with [source]; otherwise it shows between
    one and three cards, none of them for a post of id [i], each for a
    post of the catalog that shares a tag with [source], the higher scores
    first. *)
Theorem loadRelatedPosts_hides_or_shows
        (C : list Post) (i : string) (source : Post) (pg : PostPage.Page)
        (section : PostPage.Related) :
  PostPage.related pg = Some section ->
  getPostById C i = Some source ->
  let shown := PostPage.related (PostPage.loadRelatedPosts C i pg) in
  (shown = Some PostPage.Hidden
   <-> forall p, In p C -> id p <> i -> ~ sharesTag source p)
  /\ (shown = Some PostPage.Hidden
      \/ exists cards,
           shown = Some (PostPage.RelatedCards cards)
           /\ (1 <= length cards <= 3)%nat
           /\ StronglySorted (keyGe score) cards
           /\ forall r, In r cards ->
                In (post r) C /\ id (post r) <> i /\ sharesTag source (post r)).
Proof.
  intros Hsec Hf shown. subst shown. unfold PostPage.loadRelatedPosts.
  rewrite Hsec. simpl.
  pose proof (getRelatedPosts_nil_iff C i 3 source ltac:(lia) Hf) as Hnil.
  pose proof (getRelatedPosts_known C i 3 source ltac:(lia) Hf) as Hknown.
  destruct (getRelatedPosts C i 3) as [|r0 cards] eqn:Hr.
  - split; [|now left]. split; [intros _; now apply Hnil | reflexivity].
  - split.
    + split; [discriminate|]. intros Hall. apply Hnil in Hall. discriminate.
    + right. exists (r0 :: cards). split; [reflexivity|].
      split; [|split].
      * rewrite Hknown. rewrite length_firstn.
        assert (Hlen : (0 < length (r0 :: cards))%nat) by (simpl; lia).
        rewrite Hknown, length_firstn in Hlen. simpl Z.to_nat in *. lia.
      * rewrite Hknown. apply StronglySorted_firstn, Array_sort_sorted.
      * intros r Hin. rewrite Hknown in Hin. apply In_firstn in Hin.
        apply (proj1 (In_Array_sort _ _ _)) in Hin.
        apply In_candidates in Hin. destruct Hin as (Hp & Hid & Hsc & Hpos).
        split; [assumption|]. split; [assumption|].
        apply matchingTags_pos. now rewrite <- Hsc.
Qed.

Lemma loadRelatedPosts_hides_or_shows_witness :
  let pg := PostPage.blank true in
  PostPage.related pg = Some PostPage.Untouched
  /\ getPostById sample "b" = nth_error sample 1
  /\ PostPage.related (PostPage.loadRelatedPosts sample "b" pg) = Some PostPage.Hidden
  /\ forall p, In p sample -> id p <> "b"%string ->
               ~ sharesTag (examplePost "b" "2026-03-01" ["c++"%string]) p.
Proof.
  intros pg. split; [reflexivity|]. split; [reflexivity|]. split; [reflexivity|].
  destruct (loadRelatedPosts_hides_or_shows sample "b"
              (examplePost "b" "2026-03-01" ["c++"%string]) pg PostPage.Untouched
              eq_refl eq_refl) as [Hiff _].
  apply Hiff. reflexivity.
Defined.

(* ===================================================================== *)
(** ** The home page *)
(* ===================================================================== *)

(** X18: on a page that has the container, [loadRecentPosts] shows "No
    posts available yet." exactly when the catalog is empty; otherwise it
    shows cards for the first [min 6 (length C)] posts of the listing,
    which for well-formed dates are posts at least as recent as every post
    it does not show. *)
Theorem loadRecentPosts_shows_newest_six (C : list Post) (box : Main.Container) :
  validDates C ->
  let shown := Main.loadRecentPosts C (Some box) in
  (shown = Some Main.NoPostsYet <-> C = [])
  /\ (C <> [] ->
      shown = Some (Main.Cards (firstn 6 (getAllPosts C)))
      /\ length (firstn 6 (getAllPosts C)) = Nat.min 6 (length C)
      /\ forall p q, In p (firstn 6 (getAllPosts C)) ->
                     In q (skipn 6 (getAllPosts C)) ->
                     timeValue q <= timeValue p).
Proof.
  intros Hv shown. subst shown. unfold Main.loadRecentPosts.
  rewrite getRecentPosts_firstn by lia. change (Z.to_nat 6) with 6%nat.
  assert (Hnil : firstn 6 (getAllPosts C) = [] <-> C = []).
  { rewrite firstn_nil_iff by lia. unfold getAllPosts. apply Array_sort_nil_iff. }
  split.
  - destruct (firstn 6 (getAllPosts C)) eqn:Hf.
    + split; [intros _; now apply Hnil | reflexivity].
    + split; [discriminate|]. intros HC. apply Hnil in HC. discriminate.
  - intros Hne. destruct (firstn 6 (getAllPosts C)) as [|p0 l] eqn:Hf.
    + exfalso. now apply Hne, Hnil.
    + rewrite <- Hf. split; [reflexivity|]. split.
      * rewrite length_firstn. unfold getAllPosts. now rewrite length_Array_sort.
      * intros p q Hp Hq.
        pose proof (getAllPosts_newestFirst C Hv) as Hs. unfold newestFirst in Hs.
        rewrite <- (firstn_skipn 6 (getAllPosts C)) in Hs.
        exact (StronglySorted_app_cross _ _ _ p q Hs Hp Hq).
Qed.

Lemma loadRecentPosts_shows_newest_six_witness :
  validDates POSTS
  /\ POSTS <> []
  /\ Main.loadRecentPosts POSTS (Some Main.Loading) = Some (Main.Cards POSTS)
  /\ Main.loadRecentPosts [] (Some Main.Loading) = Some Main.NoPostsYet.
Proof.
  assert (Hv : validDates POSTS) by (repeat constructor; discriminate).
  assert (Hne : POSTS <> []) by discriminate.
  split; [exact Hv|]. split; [exact Hne|].
  destruct (loadRecentPosts_shows_newest_six POSTS Main.Loading Hv) as [_ Hshown].
  destruct (Hshown Hne) as [Heq _].
  split; [|reflexivity]. rewrite Heq. reflexivity.
Defined.
